(** * maddy: the sign_dkim modifier and the sql delivery target

    A shallow embedding of two modules of the maddy mail server:

    - package [dkim] (the [sign_dkim] modifier): the header selection
      [fieldsToSign], the per-message state with [RewriteSender],
      [RewriteRcpt] and [RewriteBody];
    - package [sql] (the SQL storage module): the delivery transaction
      with [AddRcpt], [Abort], [Commit], and [GetOrCreateUser].

    Go maps used as sets ([seen], [addedRcpts]) are [gset string]; Go
    functions that return an [error] return an [option error], [None]
    being [nil].  Libraries the two packages call (go-message,
    go-msgauth, go-imap-sql) and the [address] package are interfaces
    here: type classes whose operations the embedded code calls. *)

From Stdlib Require Import Ascii ZArith.
From stdpp Require Import base decidable option list gmap sets strings.

#[local] Set Warnings "-clear-no-such-hyp".

(** ** The Go standard library's [strings] package, on byte strings *)

Module strings.

(** One byte of [strings.ToLower]: the letters 'A'..'Z' become
    'a'..'z'.  Bytes outside ASCII are left as they are; the header
    names and addresses of interest are ASCII. *)
Definition lower_byte (c : ascii) : ascii :=
  let n := nat_of_ascii c in
  if (65 <=? n)%nat && (n <=? 90)%nat then ascii_of_nat (n + 32) else c.

Fixpoint ToLower (s : string) : string :=
  match s with
  | EmptyString => EmptyString
  | String c s' => String (lower_byte c) (ToLower s')
  end.

Fixpoint HasPrefix (s prefix : string) {struct prefix} : bool :=
  match prefix, s with
  | EmptyString, _ => true
  | String p prefix', String c s' =>
      if Ascii.eqb c p then HasPrefix s' prefix' else false
  | String _ _, EmptyString => false
  end.

(** [strings.Contains(s, substr)]: [substr] starts at some offset of [s]. *)
Fixpoint Contains (s substr : string) : bool :=
  HasPrefix s substr ||
  match s with
  | EmptyString => false
  | String _ s' => Contains s' substr
  end.

(** [strings.Split(s, sep)] for a one-byte separator (the source only
    splits at "@").  The result is never empty: [Split "" sep] is [[""]]. *)
Fixpoint Split (s : string) (sep : ascii) : list string :=
  match s with
  | EmptyString => [EmptyString]
  | String c s' =>
      if Ascii.eqb c sep then EmptyString :: Split s' sep
      else match Split s' sep with
           | part :: parts => String c part :: parts
           | [] => [String c EmptyString]
           end
  end.

(** [strings.Join(elems, sep)] *)
Fixpoint Join (elems : list string) (sep : string) : string :=
  match elems with
  | [] => EmptyString
  | e :: rest =>
      match rest with
      | [] => e
      | _ :: _ => e +:+ sep +:+ Join rest sep
      end
  end.

(** The first pair, in argument order, whose old string starts [s]. *)
Fixpoint firstOld (pairs : list (string * string)) (s : string)
  : option (string * string) :=
  match pairs with
  | [] => None
  | (old, new) :: pairs' =>
      if HasPrefix s old then Some (old, new) else firstOld pairs' s
  end.

(** [strings.NewReplacer(old1, new1, old2, new2, ...).Replace(s)] for old
    strings that are not empty: the target is read from left to right;
    where an old string starts, its new string is written and the old
    string is passed over ([skip] counts what is left of it), and what was
    written is not read again. *)
Fixpoint replaceFrom (pairs : list (string * string)) (skip : nat) (s : string)
  : string :=
  match s with
  | EmptyString => EmptyString
  | String c s' =>
      match skip with
      | S skip' => replaceFrom pairs skip' s'
      | O =>
          match firstOld pairs s with
          | Some (old, new) =>
              new +:+ replaceFrom pairs (String.length old - 1) s'
          | None => String c (replaceFrom pairs 0 s')
          end
      end
  end.

Definition Replace (pairs : list (string * string)) (s : string) : string :=
  replaceFrom pairs 0 s.

End strings.

(** ** Error values *)

(** The Go [error] values the two packages tell apart: the two sentinels
    of the storage backend that [AddRcpt] compares against, the
    [*smtp.SMTPError] it builds, and every other error, known by its text.
    [nil] is [None] of [option error]. *)
Inductive error : Type :=
| ErrUserDoesntExists                     (* imapsql.ErrUserDoesntExists *)
| ErrNoSuchMailbox                        (* backend.ErrNoSuchMailbox *)
| SMTPError (Code : Z) (EnhancedCode : Z * Z * Z) (Message : string)
| errors_New (text : string).

Global Instance error_eq_dec : EqDecision error.
Proof. solve_decision. Defined.

(** ** Header sets *)

Module textproto.

Record field : Type := Field { Key : string; Value : string }.

(** Modelled from the spec: [textproto.Header] is the header type of the
    go-message library, which is not part of the sources.  The spec's
    HeaderSet is "an ordered, possibly-repeating sequence of (name, value)
    pairs representing message header fields, case-insensitive by name,
    append-only during processing". *)
Definition Header : Type := list field.

(** [h.Add(k, v)] *)
Definition Add (h : Header) (k v : string) : Header := h ++ [Field k v].

(** [h.FieldsByKey(k)]: the fields named [k], names compared without
    regard to case. *)
Definition FieldsByKey (h : Header) (k : string) : list field :=
  filter (λ f, strings.ToLower (Key f) = strings.ToLower k) h.

End textproto.

Import textproto.

(** ** Message metadata *)

(** The fields of [module.MsgMetadata] that the two packages read. *)
Record MsgMetadata : Type := {
  OriginalFrom : string;
  Quarantine : bool;
  BodyLength : Z;
}.

(** ** Package dkim: the [sign_dkim] modifier *)

Module dkim.

Inductive Canonicalization : Type :=
| CanonicalizationSimple
| CanonicalizationRelaxed.

(** The fields of [Modifier] that the per-message code reads.  [signer]
    is a [crypto.Signer], the private key handle; [sigExpiry] is a
    [time.Duration] and [hash] a [crypto.Hash], both integers. *)
Record Modifier {PrivKey : Type} : Type := {
  instName : string;
  domain : string;
  selector : string;
  signer : PrivKey;
  oversignHeader : list string;
  signHeader : list string;
  headerCanon : Canonicalization;
  bodyCanon : Canonicalization;
  sigExpiry : Z;
  hash : N;
}.
Global Arguments Modifier : clear implicits.

(** [dkim.SignOptions] of go-msgauth, as [RewriteBody] fills it.
    [Expiration] is a [time.Time]; [None] is its zero value. *)
Record SignOptions {PrivKey : Type} : Type := {
  Domain : string;
  Selector : string;
  Identifier : string;
  Signer : PrivKey;
  Hash : N;
  HeaderCanonicalization : Canonicalization;
  BodyCanonicalization : Canonicalization;
  HeaderKeys : list string;
  Expiration : option Z;
}.
Global Arguments SignOptions : clear implicits.

(** What [RewriteBody] calls outside the package: the streaming signer
    of go-msgauth ([dkim.NewSigner], writes into it, [Close],
    [SignatureValue]) and the message body ([buffer.Buffer], [Open]).
    A write returns the signer after the write and the error, if any. *)
Class SignerAPI (PrivKey : Type) : Type := {
  DkimSigner : Type;
  Buffer : Type;
  Reader : Type;
  NewSigner : SignOptions PrivKey → DkimSigner + error;
  WriteHeader : DkimSigner → Header → DkimSigner * option error;
  Open : Buffer → Reader + error;
  Copy : DkimSigner → Reader → DkimSigner * option error;
  Close : DkimSigner → DkimSigner * option error;
  SignatureValue : DkimSigner → string;
}.

(** The inner loop of [fieldsToSign]:
    [for field := h.FieldsByKey(key); field.Next(); { res = append(res, key) }] *)
Definition oncePerUse (h : Header) (key : string) (res : list string) : list string :=
  foldl (λ res _, res ++ [key]) res (FieldsByKey h key).

(** Body of the loop over [m.oversignHeader]; the loop state is [seen]
    and [res]. *)
Definition oversignStep (h : Header) (st : gset string * list string) (key : string)
  : gset string * list string :=
  let '(seen, res) := st in
  if decide (strings.ToLower key ∈ seen) then (seen, res)
  else
    let seen := {[strings.ToLower key]} ∪ seen in
    let res := oncePerUse h key res in
    (seen, res ++ [key]).

(** Body of the loop over [m.signHeader]. *)
Definition signStep (h : Header) (st : gset string * list string) (key : string)
  : gset string * list string :=
  let '(seen, res) := st in
  if decide (strings.ToLower key ∈ seen) then (seen, res)
  else
    let seen := {[strings.ToLower key]} ∪ seen in
    (seen, oncePerUse h key res).

Definition fieldsToSign {PrivKey} (m : Modifier PrivKey) (h : Header) : list string :=
  let st := (∅, []) in
  let st := foldl (oversignStep h) st (oversignHeader m) in
  let st := foldl (signStep h) st (signHeader m) in
  st.2.

(** The per-message [state]; its logger is left out. *)
Record state {PrivKey : Type} : Type := {
  m : Modifier PrivKey;
  meta : MsgMetadata;
}.
Global Arguments state : clear implicits.

Definition ModStateForMsg {PrivKey} (m : Modifier PrivKey) (msgMeta : MsgMetadata)
  : state PrivKey * option error :=
  ({| m := m; meta := msgMeta |}, None).

Definition RewriteSender {PrivKey} (s : state PrivKey) (mailFrom : string)
  : string * option error :=
  (mailFrom, None).

Definition RewriteRcpt {PrivKey} (s : state PrivKey) (rcptTo : string)
  : string * option error :=
  (rcptTo, None).

(** The first three lines of [RewriteBody]: the signing identifier. *)
Definition identifier {PrivKey} (s : state PrivKey) : string :=
  let id := OriginalFrom (meta s) in
  if negb (strings.Contains id "@") then id +:+ "@" +:+ domain (m s) else id.

(** [opts] as [RewriteBody] passes it to [dkim.NewSigner]; [now] is
    what [time.Now()] returns. *)
Definition signOptions {PrivKey} (s : state PrivKey) (h : Header) (now : Z)
  : SignOptions PrivKey :=
  {| Domain := domain (m s);
     Selector := selector (m s);
     Identifier := identifier s;
     Signer := signer (m s);
     Hash := hash (m s);
     HeaderCanonicalization := headerCanon (m s);
     BodyCanonicalization := bodyCanon (m s);
     HeaderKeys := fieldsToSign (m s) h;
     Expiration := if decide (sigExpiry (m s) ≠ 0%Z)
                   then Some (now + sigExpiry (m s))%Z else None |}.

(** [RewriteBody] returns the header set as the call leaves it, and the
    error.  Log lines are left out.  On the error paths the source
    closes the signer and drops what [Close] returns. *)
Definition RewriteBody {PrivKey} `{!SignerAPI PrivKey}
    (s : state PrivKey) (h : Header) (body : Buffer) (now : Z)
  : Header * option error :=
  match NewSigner (signOptions s h now) with
  | inr err => (h, Some err)
  | inl signer =>
      match WriteHeader signer h with
      | (signer, Some err) => let _ := Close signer in (h, Some err)
      | (signer, None) =>
          match Open body with
          | inr err => let _ := Close signer in (h, Some err)
          | inl r =>
              match Copy signer r with
              | (signer, Some err) => let _ := Close signer in (h, Some err)
              | (signer, None) =>
                  match Close signer with
                  | (_, Some err) => (h, Some err)
                  | (signer, None) =>
                      (Add h "DKIM-Signature" (SignatureValue signer), None)
                  end
              end
          end
      end
  end.

(** The default header lists of the configuration. *)
Definition oversignDefault : list string :=
  [ "Subject"; "Sender"; "To"; "Cc"; "From"; "Date";
    "MIME-Version"; "Content-Type"; "Content-Transfer-Encoding";
    "Reply-To"; "In-Reply-To"; "Message-Id"; "References";
    "Autocrypt"; "Openpgp" ].

Definition signDefault : list string :=
  [ "List-Id"; "List-Help"; "List-Unsubscribe"; "List-Post"; "List-Owner";
    "List-Archive";
    "Resent-To"; "Resent-Sender"; "Resent-Message-Id"; "Resent-Date";
    "Resent-From"; "Resent-Cc" ].

(** [state.Close] *)
Definition Close_state {PrivKey} (s : state PrivKey) : option error := None.

(** How a call that may panic ends. *)
Inductive Outcome (A : Type) : Type :=
| Done (a : A)
| Failed (err : error)
| Panic (msg : string).
Global Arguments Done {A} a.
Global Arguments Failed {A} err.
Global Arguments Panic {A} msg.

Definition hashFuncs : gmap string N := {[ "sha256" := 5%N ]}.

(** What [New] sets in the [Modifier] it returns; every other field is
    its zero value until [Init]. *)
Record Inline : Type := {
  newInstName : string;
  newDomain : string;
  newSelector : string;
}.

Definition New (instName : string) (inlineArgs : list string) : Inline + error :=
  match inlineArgs with
  | [arg0; arg1] =>
      inl {| newInstName := instName; newDomain := arg0; newSelector := arg1 |}
  | [] =>
      inl {| newInstName := instName; newDomain := EmptyString;
             newSelector := EmptyString |}
  | _ => inr (errors_New "sign_dkim: wrong amount of inline arguments")
  end.

Definition Name {PrivKey} (m : Modifier PrivKey) : string := "sign_dkim".

Definition InstanceName {PrivKey} (m : Modifier PrivKey) : string := instName m.

(** [m.loadOrGenerateKey], a method of the package that is not among the
    sources read here: it reads the key file or writes a new one. *)
Class KeyStore (PrivKey : Type) : Type := {
  Files : Type;
  loadOrGenerateKey :
    Files → string → string → string → string → Files * (PrivKey + error);
}.

(** [keyValues.Replace(keyPathTemplate)] in [Init] *)
Definition keyPath (domain selector keyPathTemplate : string) : string :=
  strings.Replace [("{domain}", domain); ("{selector}", selector)] keyPathTemplate.

(** [Init] from the call of [cfg.Process] on.  [m] is the modifier as the
    configuration has filled it, its key still [None]; [processed] is what
    [cfg.Process] returns, and [hashName], [keyPathTemplate] and
    [newKeyAlgo] are the locals it has set.  The result is the modifier
    with its hash and key. *)
Definition Init {PrivKey} `{!KeyStore PrivKey}
    (m : Modifier (option PrivKey)) (processed : option error)
    (hashName keyPathTemplate newKeyAlgo : string) (files : Files)
  : Files * Outcome (Modifier (option PrivKey)) :=
  match processed with
  | Some err => (files, Failed err)
  | None =>
      if decide (domain m = EmptyString)
      then (files, Failed (errors_New "sign_domain: domain is not specified"))
      else if decide (selector m = EmptyString)
      then (files, Failed (errors_New "sign_domain: selector is not specified"))
      else
        let hash := default 0%N (hashFuncs !! hashName) in
        if decide (hash = 0%N)
        then (files, Panic "sign_dkim.Init: Hash function allowed by config matcher but not present in hashFuncs")
        else
          let keyPath := keyPath (domain m) (selector m) keyPathTemplate in
          match loadOrGenerateKey files (domain m) (selector m) keyPath newKeyAlgo with
          | (files', inr err) => (files', Failed err)
          | (files', inl signer) =>
              (files',
               Done {| instName := instName m; domain := domain m;
                       selector := selector m; signer := Some signer;
                       oversignHeader := oversignHeader m;
                       signHeader := signHeader m;
                       headerCanon := headerCanon m; bodyCanon := bodyCanon m;
                       sigExpiry := sigExpiry m; hash := hash |})
          end
  end.

End dkim.

(** ** What package sql calls outside itself *)

Module address.

(** What [address.Split] returns: mailbox and domain, or the text of
    the error. *)
Inductive SplitResult : Type :=
| Ok (mailbox domain : string)
| Err (text : string).

(** Package [address] belongs to the repository but is not among the
    sources read here: [Split] is an operation of the interface. *)
Class API : Type := { Split : string → SplitResult }.

End address.

Module imapsql.

(** The storage engine (go-imap-sql): the backend handle, the delivery
    handle it opens, and the operations on them.  An operation returns
    the handle after the call together with its result. *)
Class API : Type := {
  Backend : Type;
  Delivery : Type;
  User : Type;
  StartDelivery : Backend → Backend * (Delivery + error);
  AddRcpt : Delivery → string → Header → Delivery * option error;
  Abort : Delivery → Delivery * option error;
  Commit : Delivery → Delivery * option error;
  GetOrCreateUser : Backend → string → Backend * (User + error);
}.

(** What [Body] uses of a delivery handle besides the operations above,
    and the type of message bodies ([buffer.Buffer]). *)
Class DepositAPI `{!API} : Type := {
  Buffer : Type;
  SpecialMailbox : Delivery → string → string → Delivery * option error;
  BodyParsed : Delivery → Header → Z → Buffer → Delivery * option error;
}.

(** [imapsql.Opts], the fields [Init] sets. *)
Record Opts : Type := {
  LazyUpdatesInit : bool;
  CacheSize : Z;
  BusyTimeout : Z;
  ExclusiveLock : bool;
  MaxMsgBytes : option Z;
  ExternalStore : option string;
}.

(** What [Init] calls outside the package: [filepath.IsAbs],
    [filepath.Join(config.StateDirectory, ·)], [os.MkdirAll] and
    [imapsql.New], which returns a backend or the text of its error. *)
Class InitAPI `{!API} : Type := {
  Files : Type;
  IsAbs : string → bool;
  JoinStateDirectory : string → string;
  MkdirAll : Files → string → Files * option error;
  New : Files → string → string → Opts → Files * (Backend + string);
}.

End imapsql.

Module target.

(** Package [target] belongs to the repository but is not among the
    sources read here. *)
Class API : Type := { SanitizeForHeader : string → string }.

End target.

Module specialuse.

(** The special-use attribute of the junk mailbox (go-imap-specialuse). *)
Definition Junk : string := "\Junk".

End specialuse.

(** ** Package sql: the storage module *)

Module sql.
Section sql.
Context `{!address.API} `{!imapsql.API}.

Record Storage : Type := {
  back : imapsql.Backend;
  instName : string;
  storagePerDomain : bool;
  authPerDomain : bool;
  authDomains : list string;
  junkMbox : string;
  hostname : string;
}.

(** [store] is a pointer in the source; a delivery only reads the
    configuration through it, which no method below changes. *)
Record delivery : Type := {
  store : Storage;
  msgMeta : MsgMetadata;
  d : imapsql.Delivery;
  mailFrom : string;
  addedRcpts : gset string;
}.

Definition set_d (dlv : delivery) (d' : imapsql.Delivery) : delivery :=
  {| store := store dlv; msgMeta := msgMeta dlv; d := d';
     mailFrom := mailFrom dlv; addedRcpts := addedRcpts dlv |}.

Definition set_addedRcpts (dlv : delivery) (rcpts : gset string) : delivery :=
  {| store := store dlv; msgMeta := msgMeta dlv; d := d dlv;
     mailFrom := mailFrom dlv; addedRcpts := rcpts |}.

Definition set_back (st : Storage) (back' : imapsql.Backend) : Storage :=
  {| back := back'; instName := instName st;
     storagePerDomain := storagePerDomain st; authPerDomain := authPerDomain st;
     authDomains := authDomains st; junkMbox := junkMbox st;
     hostname := hostname st |}.

(** The first statement of [AddRcpt]: the account name before it is
    lower-cased, or the error returned at once. *)
Definition rcptAccount (dlv : delivery) (rcptTo : string) : string + error :=
  if storagePerDomain (store dlv) then inl rcptTo
  else
    match address.Split rcptTo with
    | address.Ok accountName _ => inl accountName
    | address.Err text =>
        inr (SMTPError 501%Z (5, 1, 3)%Z ("Invalid recipient address: " +:+ text))
    end.

Definition AddRcpt (dlv : delivery) (rcptTo : string) : delivery * option error :=
  match rcptAccount dlv rcptTo with
  | inr err => (dlv, Some err)
  | inl accountName =>
      let accountName := strings.ToLower accountName in
      if decide (accountName ∈ addedRcpts dlv) then (dlv, None)
      else
        let userHeader := Add [] "Delivered-To" rcptTo in
        match imapsql.AddRcpt (d dlv) (strings.ToLower accountName) userHeader with
        | (d', Some err) =>
            if decide (err = ErrUserDoesntExists ∨ err = ErrNoSuchMailbox)
            then (set_d dlv d', Some (SMTPError 550%Z (5, 1, 1)%Z "User doesn't exist"))
            else (set_d dlv d', Some err)
        | (d', None) =>
            (set_addedRcpts (set_d dlv d') ({[accountName]} ∪ addedRcpts dlv), None)
        end
  end.

Definition Abort (dlv : delivery) : delivery * option error :=
  let '(d', err) := imapsql.Abort (d dlv) in (set_d dlv d', err).

Definition Commit (dlv : delivery) : delivery * option error :=
  let '(d', err) := imapsql.Commit (d dlv) in (set_d dlv d', err).

Definition Start (st : Storage) (msgMeta : MsgMetadata) (mailFrom : string)
  : Storage * (delivery + error) :=
  match imapsql.StartDelivery (back st) with
  | (back', inr err) => (set_back st back', inr err)
  | (back', inl d) =>
      (set_back st back',
       inl {| store := set_back st back'; msgMeta := msgMeta; d := d;
              mailFrom := mailFrom; addedRcpts := ∅ |})
  end.

(** The account name [GetOrCreateUser] passes to the backend, or the
    error it returns before calling it.  [parts[0]] exists: [Split]
    never returns an empty slice. *)
Definition userAccount (st : Storage) (username : string) : string + error :=
  if storagePerDomain st then
    if negb (strings.Contains username "@")
    then inr (errors_New "GetOrCreateUser: username@domain required")
    else inl username
  else
    let parts := strings.Split username "@" in
    inl (default EmptyString (head parts)).

Definition GetOrCreateUser (st : Storage) (username : string)
  : Storage * (imapsql.User + error) :=
  match userAccount st username with
  | inr err => (st, inr err)
  | inl accountName =>
      let '(back', res) := imapsql.GetOrCreateUser (back st) accountName in
      (set_back st back', res)
  end.

Section deposit.
Context `{!imapsql.DepositAPI} `{!target.API}.

(** [header.Copy()] leaves the caller's header set alone; here header
    sets are values, and the copy is the value itself. *)
Definition Body (dlv : delivery) (header : Header) (body : imapsql.Buffer)
  : delivery * option error :=
  let quarantined :=
    if Quarantine (msgMeta dlv)
    then imapsql.SpecialMailbox (d dlv) specialuse.Junk (junkMbox (store dlv))
    else (d dlv, None) in
  match quarantined with
  | (d1, Some err) => (set_d dlv d1, Some err)
  | (d1, None) =>
      let header :=
        Add header "Return-Path"
          ("<" +:+ target.SanitizeForHeader (mailFrom dlv) +:+ ">") in
      let '(d2, err) := imapsql.BodyParsed d1 header (BodyLength (msgMeta dlv)) body in
      (set_d dlv d2, err)
  end.

End deposit.

Definition Name (st : Storage) : string := "sql".

Definition InstanceName (st : Storage) : string := instName st.

Definition IMAPExtensions (st : Storage) : list string :=
  ["APPENDLIMIT"; "MOVE"; "CHILDREN"; "SPECIAL-USE"].

(** What [New] sets in the [Storage] it returns; every other field is
    its zero value until [Init]. *)
Record Inline : Type := {
  newInstName : string;
  inlineDriverArg : string;
  inlineDSNArg : string;
}.

Definition New (instName : string) (inlineArgs : list string) : Inline + error :=
  match inlineArgs with
  | [] =>
      inl {| newInstName := instName; inlineDriverArg := EmptyString;
             inlineDSNArg := EmptyString |}
  | [_] => inr (errors_New "sql: specify at least driver and DSN")
  | [arg0; arg1] =>
      inl {| newInstName := instName; inlineDriverArg := arg0;
             inlineDSNArg := arg1 |}
  | arg0 :: rest =>
      inl {| newInstName := instName; inlineDriverArg := arg0;
             inlineDSNArg := strings.Join rest " " |}
  end.

Definition MaxUint32 : Z := 4294967295.

(** The block of [Init] that sets [opts.MaxMsgBytes]: [None] is the nil
    pointer, and [uint32(appendlimitVal)] keeps the low 32 bits. *)
Definition maxMsgBytes (appendlimitVal : Z) : option Z + error :=
  if decide (appendlimitVal = -1)%Z then inl None
  else if decide (appendlimitVal > MaxUint32)%Z
  then inr (errors_New "sql: appendlimit can't be higher than 2 GiB")
  else inl (Some (appendlimitVal mod 2 ^ 32)%Z).

(** The block of [Init] that checks the driver and the DSN and joins
    the DSN. *)
Definition dataSource (driver : string) (dsn : list string) : string + error :=
  if decide (driver = EmptyString)
  then inr (errors_New "sql: driver is not specified")
  else if decide (length dsn = 0 ∨ (length dsn = 1 ∧ dsn !! 0 = Some EmptyString))
  then inr (errors_New "sql: dsn is not specified")
  else inl (strings.Join dsn " ").

(** The values [cfg.Process] has set when it returns in [Init]: the
    locals [driver], [dsn], [fsstoreLocation], [appendlimitVal], the
    fields of [opts] and of the store.  [auth_domains] is [None] for the
    nil slice. *)
Record Settings : Type := {
  driver : string;
  dsn : list string;
  fsstoreLocation : string;
  appendlimitVal : Z;
  storage_perdomain : bool;
  auth_perdomain : bool;
  auth_domains : option (list string);
  sqlite3_cache_size : Z;
  sqlite3_busy_timeout : Z;
  sqlite3_exclusive_lock : bool;
  junk_mailbox : string;
  cfgHostname : string;
}.

Section init.
Context `{!imapsql.InitAPI}.

(** [Init] from the call of [cfg.Process] on; [processed] is what
    [cfg.Process] returns. *)
Definition Init (inline : Inline) (processed : option error) (cfg : Settings)
    (files : imapsql.Files) : imapsql.Files * (Storage + error) :=
  match processed with
  | Some err => (files, inr err)
  | None =>
      if decide (auth_perdomain cfg = true ∧ auth_domains cfg = None)
      then (files,
            inr (errors_New "sql: auth_domains must be set if auth_perdomain is used"))
      else
        let external :=
          if decide (fsstoreLocation cfg ≠ EmptyString) then
            let location :=
              if negb (imapsql.IsAbs (fsstoreLocation cfg))
              then imapsql.JoinStateDirectory (fsstoreLocation cfg)
              else fsstoreLocation cfg in
            match imapsql.MkdirAll files location with
            | (files', Some err) => (files', inr err)
            | (files', None) => (files', inl (Some location))
            end
          else (files, inl None) in
        match external with
        | (files', inr err) => (files', inr err)
        | (files', inl externalStore) =>
            match maxMsgBytes (appendlimitVal cfg) with
            | inr err => (files', inr err)
            | inl limit =>
                match dataSource (driver cfg) (dsn cfg) with
                | inr err => (files', inr err)
                | inl dsnStr =>
                    let opts :=
                      {| imapsql.LazyUpdatesInit := true;
                         imapsql.CacheSize := sqlite3_cache_size cfg;
                         imapsql.BusyTimeout := sqlite3_busy_timeout cfg;
                         imapsql.ExclusiveLock := sqlite3_exclusive_lock cfg;
                         imapsql.MaxMsgBytes := limit;
                         imapsql.ExternalStore := externalStore |} in
                    match imapsql.New files' (driver cfg) dsnStr opts with
                    | (files'', inr text) =>
                        (files'', inr (errors_New ("sql: " +:+ text)))
                    | (files'', inl back) =>
                        (files'',
                         inl {| back := back; instName := newInstName inline;
                                storagePerDomain := storage_perdomain cfg;
                                authPerDomain := auth_perdomain cfg;
                                authDomains := default [] (auth_domains cfg);
                                junkMbox := junk_mailbox cfg;
                                hostname := cfgHostname cfg |})
                    end
                end
            end
        end
  end.

End init.

End sql.
End sql.

(** ** Stand-ins for the libraries, for the examples *)

Module examples.

(** Modelled from the spec: package [address] is not among the sources.
    Section 4.4, shared policy: "account name = substring before first
    [@] (or whole string if no [@])"; section 4.3: "Resolution failure
    (malformed address under shared policy) yields a client-visible
    rejection".  Which addresses are malformed the spec leaves open:
    [malformed] is a parameter. *)
Definition specSplit (malformed : string → bool) (addr : string) : address.SplitResult :=
  if malformed addr then address.Err "malformed address"
  else
    match strings.Split addr "@" with
    | mailbox :: domain :: _ => address.Ok mailbox domain
    | mailbox :: [] => address.Ok mailbox EmptyString
    | [] => address.Ok EmptyString EmptyString
    end.

Definition specAddress (malformed : string → bool) : address.API :=
  {| address.Split := specSplit malformed |}.

(** The empty address is the only malformed one. *)
Definition emptyMalformed (addr : string) : bool := bool_decide (addr = EmptyString).

(** A storage engine kept in memory.  A delivery records the accounts
    added to it and whether it is finished; unlike the delivery layer
    above it, it refuses every call on a finished delivery.  [users]
    are the accounts that exist. *)
Record memDelivery : Type := {
  rcpts : list (string * Header);
  finished : bool;
}.

Definition txDone : error := errors_New "sql: transaction has already been committed or rolled back".

Definition memAddRcpt (users : list string) (d : memDelivery) (username : string)
    (userHeader : Header) : memDelivery * option error :=
  if finished d then (d, Some txDone)
  else if decide (username ∈ users)
       then ({| rcpts := rcpts d ++ [(username, userHeader)]; finished := false |}, None)
       else (d, Some ErrUserDoesntExists).

Definition memFinish (d : memDelivery) : memDelivery * option error :=
  if finished d then (d, Some txDone)
  else ({| rcpts := rcpts d; finished := true |}, None).

Definition memStorage (users : list string) : imapsql.API :=
  {| imapsql.Backend := unit;
     imapsql.Delivery := memDelivery;
     imapsql.User := string;
     imapsql.StartDelivery := λ b, (b, inl {| rcpts := []; finished := false |});
     imapsql.AddRcpt := memAddRcpt users;
     imapsql.Abort := memFinish;
     imapsql.Commit := memFinish;
     imapsql.GetOrCreateUser := λ b username, (b, inl username) |}.

(** A signer that collects what is written into it; it refuses an empty
    domain, and a body that is [None] cannot be opened. *)
Definition toySigner : dkim.SignerAPI unit :=
  {| dkim.DkimSigner := list string;
     dkim.Buffer := option string;
     dkim.Reader := string;
     dkim.NewSigner := λ opts,
       if decide (dkim.Domain opts = EmptyString)
       then inr (errors_New "dkim: no domain specified")
       else inl (dkim.HeaderKeys opts);
     dkim.WriteHeader := λ sg h, (sg ++ (Value <$> h), None);
     dkim.Open := λ body,
       match body with
       | Some text => inl text
       | None => inr (errors_New "buffer: cannot open")
       end;
     dkim.Copy := λ sg r, (sg ++ [r], None);
     dkim.Close := λ sg, (sg, None);
     dkim.SignatureValue := λ sg, foldr String.append EmptyString sg |}.

Definition modifier (oversign sign : list string) : dkim.Modifier unit :=
  {| dkim.instName := "local_dkim";
     dkim.domain := "example.org";
     dkim.selector := "default";
     dkim.signer := tt;
     dkim.oversignHeader := oversign;
     dkim.signHeader := sign;
     dkim.headerCanon := dkim.CanonicalizationRelaxed;
     dkim.bodyCanon := dkim.CanonicalizationSimple;
     dkim.sigExpiry := 432000000000000;
     dkim.hash := 5 |}.

Definition message (sender : string) : MsgMetadata :=
  {| OriginalFrom := sender; Quarantine := false; BodyLength := 0 |}.

Definition storage `{!imapsql.API} (back : imapsql.Backend) (perDomain : bool) : sql.Storage :=
  {| sql.back := back; sql.instName := "local_mailboxes";
     sql.storagePerDomain := perDomain; sql.authPerDomain := false;
     sql.authDomains := []; sql.junkMbox := "Junk"; sql.hostname := "mx.example.org" |}.

(** A delivery just opened on the in-memory engine. *)
Definition opened (users : list string) (perDomain : bool)
  : @sql.delivery (memStorage users) :=
  {| sql.store := @storage (memStorage users) tt perDomain;
     sql.msgMeta := message "alice@example.org";
     sql.d := {| rcpts := []; finished := false |};
     sql.mailFrom := "alice@example.org";
     sql.addedRcpts := ∅ |}.

(** The accounts of the examples, the address interface they use, and a
    delivery that has taken "Bob@example.org" already. *)
Definition users : list string := ["bob"; "carol"].

Definition exampleAddress : address.API := specAddress emptyMalformed.

Definition bobAdded (perDomain : bool) : @sql.delivery (memStorage users) :=
  {| sql.store := @storage (memStorage users) tt perDomain;
     sql.msgMeta := message "alice@example.org";
     sql.d := {| rcpts := [("bob", [Field "Delivered-To" "Bob@example.org"])];
                 finished := false |};
     sql.mailFrom := "alice@example.org";
     sql.addedRcpts := {["bob"]} |}.

(** Key files in memory: [Files] are the paths written so far.  A key is
    known by its path; an unknown algorithm is refused. *)
Definition toyKeys : dkim.KeyStore string :=
  {| dkim.Files := list string;
     dkim.loadOrGenerateKey := λ files domain selector keyPath newKeyAlgo,
       if decide (newKeyAlgo ∈ ["rsa4096"; "rsa2048"; "ed25519"])
       then (if decide (keyPath ∈ files) then files else keyPath :: files,
             inl ("key at " +:+ keyPath))
       else (files, inr (errors_New "sign_dkim: unknown key algorithm")) |}.

(** A modifier as the configuration leaves it before [Init]. *)
Definition configured (domain selector : string) : dkim.Modifier (option string) :=
  {| dkim.instName := "local_dkim";
     dkim.domain := domain;
     dkim.selector := selector;
     dkim.signer := None;
     dkim.oversignHeader := dkim.oversignDefault;
     dkim.signHeader := dkim.signDefault;
     dkim.headerCanon := dkim.CanonicalizationRelaxed;
     dkim.bodyCanon := dkim.CanonicalizationRelaxed;
     dkim.sigExpiry := 432000000000000;
     dkim.hash := 0 |}.

(** The in-memory engine takes bodies as it takes recipients: not on a
    finished delivery. *)
Definition memUnlessFinished (d : memDelivery) : memDelivery * option error :=
  if finished d then (d, Some txDone) else (d, None).

Definition memDeposit (users : list string) : @imapsql.DepositAPI (memStorage users) :=
  @imapsql.Build_DepositAPI (memStorage users) string
    (λ d attr name, memUnlessFinished d)
    (λ d header length body, memUnlessFinished d).

Definition exampleTarget : target.API :=
  {| target.SanitizeForHeader := λ raw, raw |}.

(** Directories in memory, and an engine that knows one driver. *)
Definition memInit (users : list string) : @imapsql.InitAPI (memStorage users) :=
  @imapsql.Build_InitAPI (memStorage users) (list string)
    (λ path, strings.HasPrefix path "/")
    (λ path, "/var/lib/maddy/" +:+ path)
    (λ files path, (path :: files, None))
    (λ files driver dsn opts,
       if decide (driver = "sqlite3") then (files, inl tt)
       else (files, inr "unknown driver")).

Definition settings (driver : string) (dsn : list string) (appendlimit : Z)
  : sql.Settings :=
  {| sql.driver := driver; sql.dsn := dsn;
     sql.fsstoreLocation := "messages"; sql.appendlimitVal := appendlimit;
     sql.storage_perdomain := false; sql.auth_perdomain := false;
     sql.auth_domains := None;
     sql.sqlite3_cache_size := 0; sql.sqlite3_busy_timeout := 0;
     sql.sqlite3_exclusive_lock := false;
     sql.junk_mailbox := "Junk"; sql.cfgHostname := "mx.example.org" |}.

End examples.


(** ** Notions the statements use *)

Section notions.
Import strings dkim.

(** How many fields of the header set are named [key]. *)
Definition uses (h : Header) (key : string) : nat := length (FieldsByKey h key).

(** How many entries of a signing list name [key], names compared
    without regard to case, as [fieldsToSign] compares them. *)
Definition references (key : string) (res : list string) : nat :=
  length (filter (λ e, ToLower e = ToLower key) res).

(** How many entries of a signing list are the very string [key]. *)
Definition copies (key : string) (res : list string) : nat :=
  length (filter (λ e, e = key) res).

(** Both loop bodies are one step: a name already seen is skipped, a new
    name is marked and referenced once per use plus [extra] times. *)
Definition step (extra : nat) (h : Header) (st : gset string * list string)
    (key : string) : gset string * list string :=
  if decide (ToLower key ∈ st.1) then st
  else ({[ToLower key]} ∪ st.1, st.2 ++ replicate (uses h key + extra) key).

(** Entries that name the same field are spelled the same. *)
Definition oneSpelling (seen : gset string) (res : list string) : Prop :=
  (∀ e, e ∈ res → ToLower e ∈ seen) ∧
  (∀ a b, a ∈ res → b ∈ res → ToLower a = ToLower b → a = b).

(** What the steps of [RewriteBody] that can fail come to, as the spec
    lists them (signing procedure, steps 3 to 5): the options are
    refused, streaming the header set fails, the body cannot be opened,
    streaming the body fails, closing the signer fails, or every step
    succeeds and leaves a closed signer. *)
Inductive signing {PrivKey} `{!SignerAPI PrivKey}
    (opts : SignOptions PrivKey) (h : Header) (body : Buffer)
  : DkimSigner + error → Prop :=
| options_refused err :
    NewSigner opts = inr err →
    signing opts h body (inr err)
| header_stream_fails sg0 sg1 err :
    NewSigner opts = inl sg0 →
    WriteHeader sg0 h = (sg1, Some err) →
    signing opts h body (inr err)
| body_open_fails sg0 sg1 err :
    NewSigner opts = inl sg0 →
    WriteHeader sg0 h = (sg1, None) →
    Open body = inr err →
    signing opts h body (inr err)
| body_stream_fails sg0 sg1 r sg2 err :
    NewSigner opts = inl sg0 →
    WriteHeader sg0 h = (sg1, None) →
    Open body = inl r →
    Copy sg1 r = (sg2, Some err) →
    signing opts h body (inr err)
| close_fails sg0 sg1 r sg2 sg3 err :
    NewSigner opts = inl sg0 →
    WriteHeader sg0 h = (sg1, None) →
    Open body = inl r →
    Copy sg1 r = (sg2, None) →
    Close sg2 = (sg3, Some err) →
    signing opts h body (inr err)
| signed sg0 sg1 r sg2 sg3 :
    NewSigner opts = inl sg0 →
    WriteHeader sg0 h = (sg1, None) →
    Open body = inl r →
    Copy sg1 r = (sg2, None) →
    Close sg2 = (sg3, None) →
    signing opts h body (inl sg3).

(** [AddRcpt] for each recipient of a list in turn, whatever the answers. *)
Definition addAll `{!address.API} `{!imapsql.API}
    (dlv : sql.delivery) (rcpts : list string) : sql.delivery :=
  foldl (λ dlv rcptTo, (sql.AddRcpt dlv rcptTo).1) dlv rcpts.

(** The accounts the in-memory engine holds for a delivery, in the order
    they were added. *)
Definition stored (d : examples.memDelivery) : list string := (examples.rcpts d).*1.

(** What the engine stores for a delivery and what the delivery records
    are the same accounts, each stored once. *)
Definition storedOnce {users} (dlv : @sql.delivery (examples.memStorage users)) : Prop :=
  NoDup (stored (sql.d dlv)) ∧
  ∀ acct, acct ∈ stored (sql.d dlv) ↔ acct ∈ sql.addedRcpts dlv.

(** The names of [keys] that are met for the first time, [seen] being
    the names met before them; names are compared without regard to
    case. *)
Fixpoint firstUses (seen keys : list string) : list string :=
  match keys with
  | [] => []
  | key :: keys' =>
      if decide (ToLower key ∈ ToLower <$> seen) then firstUses seen keys'
      else key :: firstUses (key :: seen) keys'
  end.

(** Each name as often as the header set uses it, and [extra] times more. *)
Definition expand (extra : nat) (h : Header) (keys : list string) : list string :=
  keys ≫= (λ key, replicate (uses h key + extra) key).

(** A modifier with other header lists. *)
Definition withLists {PrivKey} (m : Modifier PrivKey) (oversign sign : list string)
  : Modifier PrivKey :=
  {| instName := instName m; domain := domain m; selector := selector m;
     signer := signer m; oversignHeader := oversign; signHeader := sign;
     headerCanon := headerCanon m; bodyCanon := bodyCanon m;
     sigExpiry := sigExpiry m; hash := hash m |}.

End notions.

(** * Properties *)

(** ** Strings *)

Section strings_facts.
Import strings.

Lemma lower_byte_idemp c : lower_byte (lower_byte c) = lower_byte c.
Proof.
  destruct c as [[] [] [] [] [] [] [] []]; vm_compute; reflexivity.
Qed.

Lemma ToLower_idemp s : ToLower (ToLower s) = ToLower s.
Proof.
  induction s as [|c s IH]; simpl; [done|].
  by rewrite lower_byte_idemp, IH.
Qed.

Lemma String_append c s t : String c s +:+ t = String c (s +:+ t).
Proof. reflexivity. Qed.

Lemma HasPrefix_app s prefix :
  HasPrefix s prefix = true ↔ ∃ rest, s = prefix +:+ rest.
Proof.
  revert s. induction prefix as [|p prefix IH]; intros s; simpl.
  - split; [eauto|done].
  - setoid_rewrite String_append. destruct s as [|c s]; simpl.
    + split; [done|]. intros [rest Hrest]. discriminate.
    + destruct (Ascii.eqb_spec c p) as [->|Hne].
      * rewrite IH. split; intros [rest Hrest]; exists rest; congruence.
      * split; [done|]. intros [rest Hrest]. congruence.
Qed.

(** [Contains s substr] holds exactly when [substr] occurs in [s]. *)
Lemma Contains_app s substr :
  Contains s substr = true ↔ ∃ before after, s = before +:+ substr +:+ after.
Proof.
  induction s as [|c s IH]; simpl.
  - rewrite orb_false_r, HasPrefix_app. split.
    + intros [rest Hrest]. by exists EmptyString, rest.
    + intros [[|b before] [after Hs]]; [eauto|].
      rewrite String_append in Hs. discriminate.
  - rewrite orb_true_iff, HasPrefix_app, IH. split.
    + intros [[rest Hrest]|(before & after & Hs)].
      * by exists EmptyString, rest.
      * exists (String c before), after. rewrite String_append. by rewrite Hs.
    + intros [[|b before] [after Hs]].
      * left. eauto.
      * right. exists before, after. rewrite String_append in Hs. congruence.
Qed.

Lemma Contains_app_false s substr :
  Contains s substr = false ↔ ¬ ∃ before after, s = before +:+ substr +:+ after.
Proof. rewrite <-Contains_app. by destruct (Contains s substr). Qed.

Lemma Split_not_nil s sep : Split s sep ≠ [].
Proof.
  destruct s as [|c s]; simpl; [done|].
  destruct (Ascii.eqb c sep); [done|]. by destruct (Split s sep).
Qed.

End strings_facts.

(** ** [fieldsToSign] *)

Section fieldsToSign_facts.
Import strings dkim.

Lemma FieldsByKey_ToLower h a b :
  ToLower a = ToLower b → FieldsByKey h a = FieldsByKey h b.
Proof. unfold FieldsByKey. by intros ->. Qed.

Lemma uses_ToLower h a b : ToLower a = ToLower b → uses h a = uses h b.
Proof. unfold uses. by intros ->%(FieldsByKey_ToLower h). Qed.

Lemma oncePerUse_replicate h key res :
  oncePerUse h key res = res ++ replicate (uses h key) key.
Proof.
  unfold oncePerUse, uses. generalize (FieldsByKey h key) as fields.
  intros fields. revert res.
  induction fields as [|f fields IH]; intros res; simpl.
  - by rewrite app_nil_r.
  - rewrite IH, <-app_assoc. done.
Qed.

Lemma oversignStep_step h st key : oversignStep h st key = step 1 h st key.
Proof.
  destruct st as [seen res]. unfold oversignStep, step. simpl.
  case_decide; [done|].
  by rewrite oncePerUse_replicate, <-app_assoc, Nat.add_1_r, replicate_S_end.
Qed.

Lemma signStep_step h st key : signStep h st key = step 0 h st key.
Proof.
  destruct st as [seen res]. unfold signStep, step. simpl.
  case_decide; [done|].
  by rewrite oncePerUse_replicate, Nat.add_0_r.
Qed.

Lemma foldl_ext_step {A B} (f g : A → B → A) l a :
  (∀ a b, f a b = g a b) → foldl f a l = foldl g a l.
Proof.
  intros Hfg. revert a. induction l as [|b l IH]; intros a; simpl; [done|].
  by rewrite Hfg, IH.
Qed.

Lemma fieldsToSign_steps {PrivKey} (m : Modifier PrivKey) h :
  fieldsToSign m h =
  (foldl (step 0 h) (foldl (step 1 h) (∅, []) (oversignHeader m)) (signHeader m)).2.
Proof.
  unfold fieldsToSign.
  rewrite (foldl_ext_step (oversignStep h) (step 1 h)) by apply oversignStep_step.
  by rewrite (foldl_ext_step (signStep h) (step 0 h)) by apply signStep_step.
Qed.

Lemma references_app key l1 l2 :
  references key (l1 ++ l2) = references key l1 + references key l2.
Proof. unfold references. by rewrite filter_app, length_app. Qed.

Lemma references_replicate key n e :
  references key (replicate n e) = if decide (ToLower e = ToLower key) then n else 0.
Proof.
  unfold references. induction n as [|n IH]; simpl.
  - by case_decide.
  - rewrite filter_cons. case_decide; simpl; by rewrite IH.
Qed.

(** The names marked by a loop are those it started with and the names
    of its list. *)
Lemma loop_seen extra h keys st :
  (foldl (step extra h) st keys).1 = st.1 ∪ list_to_set (ToLower <$> keys).
Proof.
  revert st. induction keys as [|key keys IH]; intros st; simpl.
  - set_solver.
  - rewrite IH. unfold step. case_decide; simpl; set_solver.
Qed.

(** The references a loop adds for [key]. *)
Lemma loop_references extra h key keys st :
  references key (foldl (step extra h) st keys).2 =
  references key st.2 +
  (if decide (ToLower key ∈ st.1) then 0
   else if decide (ToLower key ∈ ToLower <$> keys) then uses h key + extra else 0).
Proof.
  revert st. induction keys as [|key0 keys IH]; intros st; simpl.
  - case_decide; lia.
  - change (list_fmap string string ToLower keys) with (ToLower <$> keys).
    rewrite IH. unfold step. destruct (decide (ToLower key0 ∈ st.1)) as [Hin|Hnin]; simpl.
    + destruct (decide (ToLower key ∈ st.1)) as [|Hkey]; [done|].
      f_equal. apply decide_ext. rewrite elem_of_cons.
      split; [tauto|]. intros [Heq|]; [|done]. congruence.
    + rewrite references_app, references_replicate.
      destruct (decide (ToLower key0 = ToLower key)) as [Heq|Hne].
      * rewrite decide_True by set_solver.
        rewrite decide_False by congruence.
        rewrite decide_True by (rewrite <-Heq; set_solver).
        rewrite (uses_ToLower h key0 key Heq). lia.
      * destruct (decide (ToLower key ∈ st.1)) as [Hkey|Hkey].
        -- rewrite decide_True by set_solver. lia.
        -- rewrite decide_False by set_solver.
           rewrite Nat.add_0_r. f_equal. apply decide_ext. set_solver.
Qed.

(** An entry of a loop's list was there before, or is a name of the
    loop's list that had not been seen. *)
Lemma loop_elem_of extra h keys st e :
  e ∈ (foldl (step extra h) st keys).2 →
  e ∈ st.2 ∨ (e ∈ keys ∧ ToLower e ∉ st.1).
Proof.
  revert st. induction keys as [|key keys IH]; intros st; simpl; [auto|].
  intros Hin%IH. unfold step in Hin.
  destruct (decide (ToLower key ∈ st.1)) as [Hkey|Hkey]; simpl in Hin.
  - set_solver.
  - rewrite elem_of_app, elem_of_replicate in Hin. set_solver.
Qed.

Lemma loop_oneSpelling extra h keys st :
  oneSpelling st.1 st.2 →
  oneSpelling (foldl (step extra h) st keys).1 (foldl (step extra h) st keys).2.
Proof.
  revert st. induction keys as [|key keys IH]; intros st Hst; simpl; [done|].
  apply IH. unfold step. case_decide as Hkey; [done|]. simpl.
  destruct Hst as [Hseen Hone]. split.
  - intros e [Hin|[-> _]%elem_of_replicate]%elem_of_app; [|set_solver].
    apply Hseen in Hin. set_solver.
  - intros a b [Ha|[-> _]%elem_of_replicate]%elem_of_app
               [Hb|[-> _]%elem_of_replicate]%elem_of_app Hab; [auto| | |done].
    + apply Hseen in Ha. rewrite Hab in Ha. done.
    + apply Hseen in Hb. rewrite <-Hab in Hb. done.
Qed.

Lemma fieldsToSign_oneSpelling {PrivKey} (m : Modifier PrivKey) h a b :
  a ∈ fieldsToSign m h → b ∈ fieldsToSign m h → ToLower a = ToLower b → a = b.
Proof.
  rewrite fieldsToSign_steps.
  eapply (loop_oneSpelling 0 h (signHeader m)), (loop_oneSpelling 1 h (oversignHeader m)).
  split; simpl; intros; set_solver.
Qed.

Lemma filter_iff_on {A} (P Q : A → Prop)
    `{!∀ x, Decision (P x), !∀ x, Decision (Q x)} (l : list A) :
  (∀ x, x ∈ l → P x ↔ Q x) → filter P l = filter Q l.
Proof.
  induction l as [|a l IH]; intros HPQ; [done|].
  rewrite !filter_cons, IH by (intros x Hx; apply HPQ; by right).
  destruct (decide (P a)) as [HP|HP], (decide (Q a)) as [HQ|HQ]; try done.
  - destruct HQ. by apply HPQ; [left|].
  - destruct HP. by apply HPQ; [left|].
Qed.

Lemma fieldsToSign_elem_of {PrivKey} (m : Modifier PrivKey) h e :
  e ∈ fieldsToSign m h →
  e ∈ oversignHeader m ∨
  (e ∈ signHeader m ∧ ∀ o, o ∈ oversignHeader m → ToLower o ≠ ToLower e).
Proof.
  rewrite fieldsToSign_steps.
  intros [Hin|[Hin Hseen]]%loop_elem_of.
  - apply loop_elem_of in Hin as [Hin|[Hin _]]; [set_solver|auto].
  - right. split; [done|]. intros o Ho Heq. apply Hseen.
    rewrite loop_seen. simpl. rewrite <-Heq. set_solver.
Qed.

Lemma fieldsToSign_references {PrivKey} (m : Modifier PrivKey) h key :
  references key (fieldsToSign m h) =
  if decide (ToLower key ∈ ToLower <$> oversignHeader m) then uses h key + 1
  else if decide (ToLower key ∈ ToLower <$> signHeader m) then uses h key
  else 0.
Proof.
  rewrite fieldsToSign_steps, !loop_references, loop_seen. simpl.
  rewrite decide_False by set_solver.
  destruct (decide (ToLower key ∈ ToLower <$> oversignHeader m)) as [Hin|Hnin].
  - rewrite decide_True by set_solver. lia.
  - rewrite decide_False by set_solver.
    case_decide; lia.
Qed.

End fieldsToSign_facts.

(** ** The signing list, by name *)

Section fieldsToSign_claims.
Import strings dkim examples.

(** C1, as the code has it.  Names are compared without regard to case,
    in the signing list as in the header set.  A name of the oversign
    list with [k] uses in the header set is referenced [k+1] times; a
    name of the sign list that is not also in the oversign list is
    referenced [k] times; and where the two lists spell a name in one
    way only, the references are copies of that very string. *)
Theorem fieldsToSign_counts {PrivKey} (m : Modifier PrivKey) (h : Header) (key : string) :
  (key ∈ oversignHeader m →
   references key (fieldsToSign m h) = uses h key + 1) ∧
  (key ∈ signHeader m →
   (∀ o, o ∈ oversignHeader m → ToLower o ≠ ToLower key) →
   references key (fieldsToSign m h) = uses h key) ∧
  ((∀ e, e ∈ oversignHeader m ++ signHeader m → ToLower e = ToLower key → e = key) →
   copies key (fieldsToSign m h) = references key (fieldsToSign m h)).
Proof.
  split; [|split].
  - intros Hin. rewrite fieldsToSign_references.
    rewrite decide_True; [done|]. by apply list_elem_of_fmap_2.
  - intros Hin Hover. rewrite fieldsToSign_references.
    rewrite decide_False.
    + rewrite decide_True; [done|]. by apply list_elem_of_fmap_2.
    + intros (o & Heq & Ho)%list_elem_of_fmap. by apply (Hover o).
  - intros Hspelling. unfold copies, references. f_equal.
    apply filter_iff_on. intros e He. split; [by intros ->|].
    intros Heq. apply Hspelling; [|done].
    apply fieldsToSign_elem_of in He. set_solver.
Qed.

Lemma fieldsToSign_counts_witness :
  let m := modifier ["Subject"; "From"] ["List-Id"] in
  let h := [Field "From" "alice@example.org"; Field "list-id" "<l.example.org>";
            Field "from" "bob@example.org"] in
  ("From" ∈ oversignHeader m ∧
   references "From" (fieldsToSign m h) = 3) ∧
  ("List-Id" ∈ signHeader m ∧
   (∀ o, o ∈ oversignHeader m → ToLower o ≠ ToLower "List-Id") ∧
   references "List-Id" (fieldsToSign m h) = 1) ∧
  ((∀ e, e ∈ oversignHeader m ++ signHeader m → ToLower e = ToLower "From" → e = "From") ∧
   copies "From" (fieldsToSign m h) = 3).
Proof.
  intros m h.
  assert (Hfrom : "From" ∈ oversignHeader m) by (right; left).
  assert (Hlist : "List-Id" ∈ signHeader m) by left.
  assert (Hover : ∀ o, o ∈ oversignHeader m → ToLower o ≠ ToLower "List-Id").
  { intros o Ho. simpl in Ho.
    apply elem_of_cons in Ho as [->|Ho]; [discriminate|].
    apply elem_of_cons in Ho as [->|Ho]; [discriminate|].
    by apply elem_of_nil in Ho. }
  assert (Hone : ∀ e, e ∈ oversignHeader m ++ signHeader m →
                      ToLower e = ToLower "From" → e = "From").
  { intros e He. simpl in He.
    apply elem_of_cons in He as [->|He]; [discriminate|].
    apply elem_of_cons in He as [->|He]; [done|].
    apply elem_of_cons in He as [->|He]; [discriminate|].
    by apply elem_of_nil in He. }
  destruct (fieldsToSign_counts m h "From") as (Hc1 & _ & Hc3).
  destruct (fieldsToSign_counts m h "List-Id") as (_ & Hc2 & _).
  split; [|split].
  - split; [exact Hfrom|]. exact (Hc1 Hfrom).
  - split; [exact Hlist|]. split; [exact Hover|]. exact (Hc2 Hlist Hover).
  - split; [exact Hone|]. rewrite (Hc3 Hone). exact (Hc1 Hfrom).
Defined.

(** C1 as the spec words it does not hold.  "From" is in the sign list and
    used once, yet the signing list holds it twice, because the oversign
    list has it too; "from" is in the oversign list and used once, yet
    the signing list holds no "from", because "From" came first. *)
Lemma fieldsToSign_counts_counterexample :
  let m := modifier ["From"; "from"] ["Subject"; "From"] in
  let h := [Field "From" "alice@example.org"] in
  fieldsToSign m h = ["From"; "From"] ∧
  ("From" ∈ signHeader m ∧ uses h "From" = 1 ∧
   copies "From" (fieldsToSign m h) ≠ uses h "From") ∧
  ("from" ∈ oversignHeader m ∧ uses h "from" = 1 ∧
   copies "from" (fieldsToSign m h) ≠ uses h "from" + 1).
Proof.
  intros m h. split; [by vm_compute|]. split.
  - split; [right; left|]. split; [by vm_compute|]. by vm_compute.
  - split; [right; left|]. split; [by vm_compute|]. by vm_compute.
Qed.

(** C8.  A name that both lists have, whatever the case of its letters in
    either, is referenced [k+1] times, [k] being its uses in the header
    set; every one of these references is a name of the oversign list;
    and references to one name are spelled in one way. *)
Theorem fieldsToSign_both_lists {PrivKey} (m : Modifier PrivKey) (h : Header)
    (o s : string) :
  o ∈ oversignHeader m → s ∈ signHeader m → ToLower o = ToLower s →
  references s (fieldsToSign m h) = uses h s + 1 ∧
  (∀ e, e ∈ fieldsToSign m h → ToLower e = ToLower s → e ∈ oversignHeader m) ∧
  (∀ a b, a ∈ fieldsToSign m h → b ∈ fieldsToSign m h →
          ToLower a = ToLower b → a = b).
Proof.
  intros Ho Hs Heq. split; [|split].
  - rewrite fieldsToSign_references, decide_True; [done|].
    rewrite <-Heq. by apply list_elem_of_fmap_2.
  - intros e He Hes. apply fieldsToSign_elem_of in He as [He|[_ Hnot]]; [done|].
    destruct (Hnot o Ho). congruence.
  - apply fieldsToSign_oneSpelling.
Qed.

Lemma fieldsToSign_both_lists_witness :
  let m := modifier ["From"] ["from"] in
  let h := [Field "FROM" "alice@example.org"; Field "From" "bob@example.org"] in
  "From" ∈ oversignHeader m ∧ "from" ∈ signHeader m ∧
  ToLower "From" = ToLower "from" ∧
  fieldsToSign m h = ["From"; "From"; "From"] ∧
  references "from" (fieldsToSign m h) = uses h "from" + 1.
Proof.
  intros m h.
  assert (Ho : "From" ∈ oversignHeader m) by left.
  assert (Hs : "from" ∈ signHeader m) by left.
  assert (Heq : ToLower "From" = ToLower "from") by reflexivity.
  split; [exact Ho|]. split; [exact Hs|]. split; [exact Heq|].
  split; [by vm_compute|].
  exact (proj1 (fieldsToSign_both_lists m h "From" "from" Ho Hs Heq)).
Defined.

End fieldsToSign_claims.

(** ** The per-message state of the modifier *)

Section state_claims.
Import strings dkim examples.

(** C9.  The identifier handed to the signer is the original envelope
    sender itself when an "@" occurs in it, and the sender followed by
    "@" and the signing domain when none does. *)
Theorem identifier_qualified {PrivKey} (s : state PrivKey) (h : Header) (now : Z) :
  let sender := OriginalFrom (meta s) in
  Identifier (signOptions s h now) = identifier s ∧
  ((∃ before after, sender = before +:+ "@" +:+ after) →
   identifier s = sender) ∧
  ((¬ ∃ before after, sender = before +:+ "@" +:+ after) →
   identifier s = sender +:+ "@" +:+ domain (m s)).
Proof.
  intros sender. split; [done|]. unfold identifier. fold sender. split.
  - intros Hat%Contains_app. by rewrite Hat.
  - intros Hno%Contains_app_false. by rewrite Hno.
Qed.

Lemma identifier_qualified_witness :
  let alice := {| m := modifier [] []; meta := message "alice" |} in
  let other := {| m := modifier [] []; meta := message "alice@other.org" |} in
  ((¬ ∃ before after, "alice" = before +:+ "@" +:+ after) ∧
   identifier alice = "alice@example.org") ∧
  ((∃ before after, "alice@other.org" = before +:+ "@" +:+ after) ∧
   identifier other = "alice@other.org").
Proof.
  intros alice other.
  assert (Hno : ¬ ∃ before after, "alice" = before +:+ "@" +:+ after).
  { by apply Contains_app_false. }
  assert (Hat : ∃ before after, "alice@other.org" = before +:+ "@" +:+ after).
  { by exists "alice", "other.org". }
  split.
  - split; [exact Hno|].
    exact (proj2 (proj2 (identifier_qualified alice [] 0)) Hno).
  - split; [exact Hat|].
    exact (proj1 (proj2 (identifier_qualified other [] 0)) Hat).
Defined.

(** C10.  [RewriteSender] and [RewriteRcpt] hand back the address they
    are given and no error, whatever the state and the address. *)
Theorem RewriteSender_RewriteRcpt_identity {PrivKey} (s : state PrivKey) (addr : string) :
  RewriteSender s addr = (addr, None) ∧ RewriteRcpt s addr = (addr, None).
Proof. split; reflexivity. Qed.

Lemma signing_functional {PrivKey} `{!SignerAPI PrivKey}
    (opts : SignOptions PrivKey) h body o1 o2 :
  signing opts h body o1 → signing opts h body o2 → o1 = o2.
Proof. destruct 1; destruct 1; congruence. Qed.

Lemma RewriteBody_signing {PrivKey} `{!SignerAPI PrivKey}
    (s : state PrivKey) (h : Header) (body : Buffer) (now : Z) :
  ∃ outcome,
    signing (signOptions s h now) h body outcome ∧
    RewriteBody s h body now =
    match outcome with
    | inl sg => (h ++ [Field "DKIM-Signature" (SignatureValue sg)], None)
    | inr err => (h, Some err)
    end.
Proof.
  unfold RewriteBody.
  destruct (NewSigner (signOptions s h now)) as [sg0|err] eqn:Hnew.
  2:{ exists (inr err). split; [by constructor|done]. }
  destruct (WriteHeader sg0 h) as [sg1 [err|]] eqn:Hhdr.
  { exists (inr err). split; [by eapply header_stream_fails|done]. }
  destruct (Open body) as [r|err] eqn:Hopen.
  2:{ exists (inr err). split; [by eapply body_open_fails|done]. }
  destruct (Copy sg1 r) as [sg2 [err|]] eqn:Hcopy.
  { exists (inr err). split; [by eapply body_stream_fails|done]. }
  destruct (Close sg2) as [sg3 [err|]] eqn:Hclose.
  { exists (inr err). split; [by eapply close_fails|done]. }
  exists (inl sg3). split; [by eapply signed|done].
Qed.


#[local] Existing Instance toySigner.


End state_claims.

(** ** The delivery transaction *)

Section delivery_claims.
Import strings sql.
Context `{!address.API} `{!imapsql.API}.

(** What [AddRcpt] does once the recipient is resolved to an account that
    the transaction does not have yet: one call of the backend, with the
    lower-cased account and the Delivered-To header. *)
Lemma AddRcpt_resolved dlv rcptTo acct :
  rcptAccount dlv rcptTo = inl acct →
  ToLower acct ∉ addedRcpts dlv →
  AddRcpt dlv rcptTo =
  match imapsql.AddRcpt (d dlv) (ToLower acct) (Add [] "Delivered-To" rcptTo) with
  | (d', Some err) =>
      if decide (err = ErrUserDoesntExists ∨ err = ErrNoSuchMailbox)
      then (set_d dlv d', Some (SMTPError 550%Z (5, 1, 1)%Z "User doesn't exist"))
      else (set_d dlv d', Some err)
  | (d', None) =>
      (set_addedRcpts (set_d dlv d') ({[ToLower acct]} ∪ addedRcpts dlv), None)
  end.
Proof.
  intros Hacct Hnew. unfold AddRcpt. rewrite Hacct. cbv zeta.
  rewrite decide_False by done. by rewrite ToLower_idemp.
Qed.

Lemma AddRcpt_known dlv rcptTo acct :
  rcptAccount dlv rcptTo = inl acct →
  ToLower acct ∈ addedRcpts dlv →
  AddRcpt dlv rcptTo = (dlv, None).
Proof.
  intros Hacct Hin. unfold AddRcpt. rewrite Hacct. cbv zeta.
  by rewrite decide_True.
Qed.


(** C3, as the code has it.  Under the per-domain policy [AddRcpt] takes
    the whole recipient address as the account, with or without an "@":
    resolution cannot fail, and a recipient the backend accepts is
    recorded under its lower-cased address.  Under the shared policy the
    account is the mailbox that [address.Split] returns.  It is
    [GetOrCreateUser] that refuses a name without "@" under the
    per-domain policy, before any call of the backend. *)
Theorem AddRcpt_without_domain (dlv : delivery) (rcptTo : string) :
  (storagePerDomain (store dlv) = true →
   rcptAccount dlv rcptTo = inl rcptTo ∧
   ∀ d', ToLower rcptTo ∉ addedRcpts dlv →
         imapsql.AddRcpt (d dlv) (ToLower rcptTo) (Add [] "Delivered-To" rcptTo)
           = (d', None) →
         (AddRcpt dlv rcptTo).2 = None ∧
         addedRcpts (AddRcpt dlv rcptTo).1 = {[ToLower rcptTo]} ∪ addedRcpts dlv) ∧
  (storagePerDomain (store dlv) = false →
   ∀ mailbox domain, address.Split rcptTo = address.Ok mailbox domain →
     rcptAccount dlv rcptTo = inl mailbox ∧
     ∀ d', ToLower mailbox ∉ addedRcpts dlv →
           imapsql.AddRcpt (d dlv) (ToLower mailbox) (Add [] "Delivered-To" rcptTo)
             = (d', None) →
           (AddRcpt dlv rcptTo).2 = None ∧
           addedRcpts (AddRcpt dlv rcptTo).1 = {[ToLower mailbox]} ∪ addedRcpts dlv) ∧
  (∀ st : Storage,
     storagePerDomain st = true →
     (¬ ∃ before after, rcptTo = before +:+ "@" +:+ after) →
     GetOrCreateUser st rcptTo =
     (st, inr (errors_New "GetOrCreateUser: username@domain required"))).
Proof.
  split; [|split].
  - intros Hpol.
    assert (Hacct : rcptAccount dlv rcptTo = inl rcptTo).
    { unfold rcptAccount. by rewrite Hpol. }
    split; [done|]. intros d' Hnew Hback.
    by rewrite (AddRcpt_resolved _ _ _ Hacct Hnew), Hback.
  - intros Hpol mailbox domain Hsplit.
    assert (Hacct : rcptAccount dlv rcptTo = inl mailbox).
    { unfold rcptAccount. by rewrite Hpol, Hsplit. }
    split; [done|]. intros d' Hnew Hback.
    by rewrite (AddRcpt_resolved _ _ _ Hacct Hnew), Hback.
  - intros st Hpol Hno%Contains_app_false.
    unfold GetOrCreateUser, userAccount. by rewrite Hpol, Hno.
Qed.

(** C4.  A recipient that [address.Split] refuses under the shared policy
    is answered with code 501 and enhanced code 5.1.3.  When the backend
    is called and returns one of its two sentinels, the answer is code 550
    with enhanced code 5.1.1; any other error of the backend is returned
    as it is.  In all three cases no account is recorded. *)
Theorem AddRcpt_errors (dlv : delivery) (rcptTo : string) :
  (∀ text,
     storagePerDomain (store dlv) = false →
     address.Split rcptTo = address.Err text →
     AddRcpt dlv rcptTo =
     (dlv, Some (SMTPError 501%Z (5, 1, 3)%Z ("Invalid recipient address: " +:+ text)))) ∧
  (∀ acct d' err,
     rcptAccount dlv rcptTo = inl acct →
     ToLower acct ∉ addedRcpts dlv →
     imapsql.AddRcpt (d dlv) (ToLower acct) (Add [] "Delivered-To" rcptTo)
       = (d', Some err) →
     (err = ErrUserDoesntExists ∨ err = ErrNoSuchMailbox →
      (AddRcpt dlv rcptTo).2 =
      Some (SMTPError 550%Z (5, 1, 1)%Z "User doesn't exist")) ∧
     (err ≠ ErrUserDoesntExists → err ≠ ErrNoSuchMailbox →
      (AddRcpt dlv rcptTo).2 = Some err) ∧
     addedRcpts (AddRcpt dlv rcptTo).1 = addedRcpts dlv).
Proof.
  split.
  - intros text Hpol Hsplit. unfold AddRcpt, rcptAccount.
    by rewrite Hpol, Hsplit.
  - intros acct d' err Hacct Hnew Hback.
    rewrite (AddRcpt_resolved _ _ _ Hacct Hnew), Hback.
    split; [|split].
    + intros Hsentinel. by rewrite decide_True.
    + intros Hne1 Hne2. rewrite decide_False; [done|]. by intros [|].
    + by case_decide.
Qed.

(** C7.  A recipient whose account the transaction has recorded is
    answered with success and the delivery is left as it was: the backend
    is not called and the set of accounts is the same.  A recipient whose
    account is new and which the backend accepts is answered with
    success, and exactly that account joins the set. *)
Theorem AddRcpt_dedup (dlv : delivery) (rcptTo acct : string) :
  rcptAccount dlv rcptTo = inl acct →
  (ToLower acct ∈ addedRcpts dlv → AddRcpt dlv rcptTo = (dlv, None)) ∧
  (ToLower acct ∉ addedRcpts dlv →
   ∀ d', imapsql.AddRcpt (d dlv) (ToLower acct) (Add [] "Delivered-To" rcptTo)
           = (d', None) →
         AddRcpt dlv rcptTo =
         (set_addedRcpts (set_d dlv d') ({[ToLower acct]} ∪ addedRcpts dlv), None) ∧
         size (addedRcpts (AddRcpt dlv rcptTo).1) = S (size (addedRcpts dlv))).
Proof.
  intros Hacct. split.
  - by apply AddRcpt_known.
  - intros Hnew d' Hback.
    rewrite (AddRcpt_resolved _ _ _ Hacct Hnew), Hback. split; [done|].
    simpl. rewrite size_union by set_solver. by rewrite size_singleton.
Qed.

End delivery_claims.

(** ** The delivery transaction on the in-memory engine *)

Section delivery_examples.
Import strings sql examples.
#[local] Existing Instance exampleAddress.

Lemma AddRcpt_dedup_witness :
  let dlv := bobAdded false in
  (rcptAccount dlv "BOB@example.org" = inl "BOB" ∧
   ToLower "BOB" ∈ addedRcpts dlv ∧
   AddRcpt dlv "BOB@example.org" = (dlv, None)) ∧
  (rcptAccount dlv "carol@example.org" = inl "carol" ∧
   (ToLower "carol" ∉ addedRcpts dlv) ∧
   size (addedRcpts (AddRcpt dlv "carol@example.org").1) = S (size (addedRcpts dlv))).
Proof.
  intros dlv.
  assert (Hbob : rcptAccount dlv "BOB@example.org" = inl "BOB") by reflexivity.
  assert (Hcarol : rcptAccount dlv "carol@example.org" = inl "carol") by reflexivity.
  assert (Hin : ToLower "BOB" ∈ addedRcpts dlv).
  { apply elem_of_singleton. reflexivity. }
  assert (Hnew : ToLower "carol" ∉ addedRcpts dlv).
  { unfold dlv. simpl. intros Hc%elem_of_singleton. discriminate Hc. }
  split.
  - split; [exact Hbob|]. split; [exact Hin|].
    exact (proj1 (AddRcpt_dedup dlv _ _ Hbob) Hin).
  - split; [exact Hcarol|]. split; [exact Hnew|].
    exact (proj2 (proj2 (AddRcpt_dedup dlv _ _ Hcarol) Hnew _ eq_refl)).
Defined.

Lemma AddRcpt_errors_witness :
  let dlv := opened users false in
  let done := (Commit dlv).1 in
  (address.Split "" = address.Err "malformed address" ∧
   AddRcpt dlv "" =
   (dlv, Some (SMTPError 501%Z (5, 1, 3)%Z
                 "Invalid recipient address: malformed address"))) ∧
  (rcptAccount dlv "dave@example.org" = inl "dave" ∧
   (AddRcpt dlv "dave@example.org").2 =
   Some (SMTPError 550%Z (5, 1, 1)%Z "User doesn't exist")) ∧
  (rcptAccount done "carol@example.org" = inl "carol" ∧
   (AddRcpt done "carol@example.org").2 = Some txDone).
Proof.
  intros dlv done.
  assert (Hsplit : address.Split "" = address.Err "malformed address") by reflexivity.
  assert (Hdave : rcptAccount dlv "dave@example.org" = inl "dave") by reflexivity.
  assert (Hcarol : rcptAccount done "carol@example.org" = inl "carol") by reflexivity.
  assert (Hnew : ∀ acct : string, acct ∉ (∅ : gset string)).
  { intros acct. apply not_elem_of_empty. }
  split; [|split].
  - split; [exact Hsplit|].
    exact (proj1 (AddRcpt_errors dlv "") _ eq_refl Hsplit).
  - split; [exact Hdave|].
    refine (proj1 (proj2 (AddRcpt_errors dlv _) "dave" (d dlv) ErrUserDoesntExists
                     Hdave (Hnew _) eq_refl) _).
    by left.
  - split; [exact Hcarol|].
    refine (proj1 (proj2 (proj2 (AddRcpt_errors done _) "carol" (d done) txDone
                            Hcarol (Hnew _) eq_refl)) _ _); discriminate.
Defined.



Lemma AddRcpt_without_domain_witness :
  let perDomain := opened users true in
  let shared := opened users false in
  (storagePerDomain (store perDomain) = true ∧
   rcptAccount perDomain "bob" = inl "bob" ∧
   (AddRcpt perDomain "bob").2 = None) ∧
  (storagePerDomain (store shared) = false ∧
   address.Split "bob" = address.Ok "bob" "" ∧
   (AddRcpt shared "bob").2 = None) ∧
  ((¬ ∃ before after, "bob" = before +:+ "@" +:+ after) ∧
   GetOrCreateUser (store perDomain) "bob" =
   (store perDomain, inr (errors_New "GetOrCreateUser: username@domain required"))).
Proof.
  intros perDomain shared.
  assert (Hno : ¬ ∃ before after, "bob" = before +:+ "@" +:+ after).
  { by apply Contains_app_false. }
  assert (Hnew : ToLower "bob" ∉ (∅ : gset string)) by apply not_elem_of_empty.
  destruct (AddRcpt_without_domain perDomain "bob") as (Hper & _ & Huser).
  destruct (AddRcpt_without_domain shared "bob") as (_ & Hshared & _).
  split; [|split].
  - split; [reflexivity|]. split; [exact (proj1 (Hper eq_refl))|].
    exact (proj1 (proj2 (Hper eq_refl) _ Hnew eq_refl)).
  - split; [reflexivity|]. split; [reflexivity|].
    exact (proj1 (proj2 (Hshared eq_refl "bob" "" eq_refl) _ Hnew eq_refl)).
  - split; [exact Hno|]. exact (Huser (store perDomain) eq_refl Hno).
Defined.

(** C3 as the spec words it does not hold.  Under the per-domain policy
    [AddRcpt] of "bob", which has no "@", returns success, and "bob" is
    recorded and stored. *)
Lemma AddRcpt_without_domain_counterexample :
  let dlv := opened users true in
  storagePerDomain (store dlv) = true ∧
  Contains "bob" "@" = false ∧
  (AddRcpt dlv "bob").2 = None ∧
  "bob" ∈ addedRcpts (AddRcpt dlv "bob").1 ∧
  stored (d (AddRcpt dlv "bob").1) = ["bob"].
Proof.
  intros dlv. repeat split; by vm_compute.
Qed.

(** C6 at the input where it fails.  [GetOrCreateUser] hands the backend
    "Bob" under the shared policy and "Bob@Example.org" under the
    per-domain policy, capitals kept, and the engine opens the account of
    that name; [AddRcpt] of the same address stores the message for "bob"
    and for "bob@example.org". *)
Theorem GetOrCreateUser_keeps_case :
  let shared := opened ["bob"] false in
  let perDomain := opened ["bob@example.org"] true in
  userAccount (store shared) "Bob@Example.org" = inl "Bob" ∧
  userAccount (store perDomain) "Bob@Example.org" = inl "Bob@Example.org" ∧
  (GetOrCreateUser (store shared) "Bob@Example.org").2 = inl "Bob" ∧
  (GetOrCreateUser (store perDomain) "Bob@Example.org").2 = inl "Bob@Example.org" ∧
  "Bob" ≠ ToLower "Bob" ∧
  "Bob@Example.org" ≠ ToLower "Bob@Example.org" ∧
  stored (d (AddRcpt shared "Bob@Example.org").1) = ["bob"] ∧
  stored (d (AddRcpt perDomain "Bob@Example.org").1) = ["bob@example.org"].
Proof. intros shared perDomain. repeat split; by vm_compute. Qed.

Lemma AddRcpt_storedOnce (api : address.API) users
    (dlv : @delivery (memStorage users)) rcptTo :
  storedOnce dlv → storedOnce (@AddRcpt api (memStorage users) dlv rcptTo).1.
Proof.
  intros [Hnodup Hsame].
  destruct (@rcptAccount api (memStorage users) dlv rcptTo) as [acct|err] eqn:Hacct.
  2:{ unfold AddRcpt. by rewrite Hacct. }
  destruct (decide (ToLower acct ∈ addedRcpts dlv)) as [Hin|Hnew].
  { by rewrite (AddRcpt_known _ _ _ Hacct Hin). }
  rewrite (AddRcpt_resolved _ _ _ Hacct Hnew). simpl. unfold memAddRcpt.
  destruct (finished (d dlv)); [done|].
  destruct (decide (ToLower acct ∈ users)); [|done].
  split; unfold stored; simpl; rewrite fmap_app; simpl.
  - apply NoDup_app. split; [done|]. split; [|apply NoDup_singleton].
    intros a Ha ->%list_elem_of_singleton. by apply Hnew, Hsame.
  - intros a. rewrite elem_of_app, list_elem_of_singleton, elem_of_union,
      elem_of_singleton. specialize (Hsame a). unfold stored in Hsame. tauto.
Qed.

(** In support of C7, and X21: however many recipients are added to a
    delivery, in whatever order and however often, the engine stores each
    account once, and these are the accounts the delivery records. *)
Theorem addAll_no_account_twice (api : address.API) users perDomain rcpts :
  storedOnce (@addAll api (memStorage users) (opened users perDomain) rcpts).
Proof.
  unfold addAll.
  assert (Hstart : storedOnce (opened users perDomain)).
  { split; [constructor|]. intros acct. unfold stored. simpl. set_solver. }
  revert Hstart. generalize (opened users perDomain) as dlv.
  induction rcpts as [|rcptTo rcpts IH]; intros dlv Hdlv; simpl; [done|].
  by apply IH, AddRcpt_storedOnce.
Qed.

End delivery_examples.

(** ** More on the signing list *)

Section fieldsToSign_more.
Import strings dkim examples.

Lemma step_seen_id extra h st key :
  ToLower key ∈ st.1 → step extra h st key = st.
Proof. intros Hin. unfold step. by rewrite decide_True. Qed.

(** A loop, as the names met for the first time, each expanded. *)
Lemma loop_expand extra h keys st seen :
  st.1 = list_to_set (ToLower <$> seen) →
  (foldl (step extra h) st keys).2 = st.2 ++ expand extra h (firstUses seen keys).
Proof.
  revert st seen. induction keys as [|key keys IH]; intros st seen Hseen; simpl.
  - unfold expand. simpl. by rewrite app_nil_r.
  - unfold step at 2. rewrite Hseen.
    destruct (decide (ToLower key ∈ ToLower <$> seen)) as [Hin|Hnew].
    + rewrite decide_True by (by apply elem_of_list_to_set).
      by apply IH.
    + rewrite decide_False by (by rewrite elem_of_list_to_set).
      rewrite (IH _ (key :: seen)) by (by rewrite fmap_cons).
      simpl. unfold expand. simpl. by rewrite app_assoc.
Qed.

Lemma fieldsToSign_expand {PrivKey} (m : Modifier PrivKey) h :
  fieldsToSign m h =
  expand 1 h (firstUses [] (oversignHeader m)) ++
  expand 0 h (firstUses (oversignHeader m) (signHeader m)).
Proof.
  rewrite fieldsToSign_steps.
  rewrite (loop_expand 0 h (signHeader m) _ (oversignHeader m)).
  - by rewrite (loop_expand 1 h (oversignHeader m) _ []).
  - rewrite loop_seen. simpl. set_solver.
Qed.

Lemma firstUses_subseteq seen keys : firstUses seen keys ⊆ keys.
Proof.
  revert seen. induction keys as [|key keys IH]; intros seen; simpl; [done|].
  case_decide.
  - etrans; [apply IH|]. set_solver.
  - specialize (IH (key :: seen)). set_solver.
Qed.

Lemma expand_ext extra h1 h2 keys :
  (∀ key, key ∈ keys → uses h1 key = uses h2 key) →
  expand extra h1 keys = expand extra h2 keys.
Proof.
  unfold expand. induction keys as [|key keys IH]; intros Huses; simpl; [done|].
  rewrite Huses by left. f_equal. apply IH. intros k Hk. apply Huses. by right.
Qed.

(** The signing list looks at the header set only through the number of
    uses of the configured names. *)
Lemma fieldsToSign_uses_ext {PrivKey} (m : Modifier PrivKey) h1 h2 :
  (∀ key, key ∈ oversignHeader m ++ signHeader m → uses h1 key = uses h2 key) →
  fieldsToSign m h1 = fieldsToSign m h2.
Proof.
  intros Huses. rewrite !fieldsToSign_expand. f_equal; apply expand_ext.
  - intros key Hkey%firstUses_subseteq. apply Huses. set_solver.
  - intros key Hkey%firstUses_subseteq. apply Huses. set_solver.
Qed.

Lemma uses_Add h k v key :
  uses (Add h k v) key =
  uses h key + (if decide (ToLower k = ToLower key) then 1 else 0).
Proof.
  unfold uses, FieldsByKey, Add, Header. rewrite filter_app, length_app. f_equal.
  rewrite filter_cons. simpl. by case_decide.
Qed.

Lemma expand_once keys : expand 1 [] keys = keys.
Proof.
  unfold expand. induction keys as [|key keys IH]; [done|].
  by rewrite bind_cons, IH.
Qed.

Lemma expand_none keys : expand 0 [] keys = [].
Proof.
  unfold expand. induction keys as [|key keys IH]; [done|].
  by rewrite bind_cons, IH.
Qed.

(** X1.  The signing list in closed form: the names of the oversign list,
    each at its first mention only, each as often as the header set uses
    it and once more; then the names of the sign list, each at its first
    mention in either list only, each as often as the header set uses
    it.  The configured order is kept and the entries of one name stand
    together. *)
Theorem fieldsToSign_closed_form {PrivKey} (m : Modifier PrivKey) (h : Header) :
  fieldsToSign m h =
  (firstUses [] (oversignHeader m) ≫= λ key, replicate (uses h key + 1) key) ++
  (firstUses (oversignHeader m) (signHeader m) ≫= λ key, replicate (uses h key) key).
Proof.
  rewrite fieldsToSign_expand. unfold expand. f_equal.
  induction (firstUses (oversignHeader m) (signHeader m)) as [|key keys IH];
    [done|].
  by rewrite !bind_cons, IH, Nat.add_0_r.
Qed.

(** X2.  A name written again in the configuration, in any case of
    letters, is not taken again: the signing list is the same as without
    the repeat.  This holds for a repeat within the oversign list and
    for a name of the sign list that either list has before it. *)
Theorem fieldsToSign_repeat_ignored {PrivKey} (m : Modifier PrivKey) (h : Header)
    (key : string) (before after : list string) :
  (ToLower key ∈ ToLower <$> before →
   ∀ sign,
     fieldsToSign (withLists m (before ++ key :: after) sign) h =
     fieldsToSign (withLists m (before ++ after) sign) h) ∧
  (∀ oversign,
     ToLower key ∈ ToLower <$> (oversign ++ before) →
     fieldsToSign (withLists m oversign (before ++ key :: after)) h =
     fieldsToSign (withLists m oversign (before ++ after)) h).
Proof.
  split.
  - intros Hin sign. rewrite !fieldsToSign_steps. simpl.
    rewrite !foldl_app. simpl. rewrite step_seen_id; [done|].
    rewrite loop_seen. simpl. apply elem_of_union_r. by apply elem_of_list_to_set.
  - intros oversign Hin. rewrite !fieldsToSign_steps. simpl.
    rewrite !foldl_app. simpl. rewrite step_seen_id; [done|].
    rewrite !loop_seen. simpl. rewrite fmap_app in Hin.
    apply elem_of_app in Hin as [Hin|Hin].
    + apply elem_of_union_l, elem_of_union_r. by apply elem_of_list_to_set.
    + apply elem_of_union_r. by apply elem_of_list_to_set.
Qed.

Lemma fieldsToSign_repeat_ignored_witness :
  let m := modifier ["From"; "To"] ["List-Id"] in
  let h := [Field "From" "alice@example.org"] in
  (ToLower "FROM" ∈ ToLower <$> ["From"] ∧
   fieldsToSign (withLists m (["From"] ++ "FROM" :: ["To"]) ["List-Id"]) h =
   fieldsToSign (withLists m (["From"] ++ ["To"]) ["List-Id"]) h) ∧
  (ToLower "to" ∈ ToLower <$> (["From"; "To"] ++ []) ∧
   fieldsToSign (withLists m ["From"; "To"] ([] ++ "to" :: ["List-Id"])) h =
   fieldsToSign (withLists m ["From"; "To"] ([] ++ ["List-Id"])) h).
Proof.
  intros m h.
  assert (H1 : ToLower "FROM" ∈ ToLower <$> ["From"]) by left.
  assert (H2 : ToLower "to" ∈ ToLower <$> (["From"; "To"] ++ [])) by (right; left).
  split.
  - split; [exact H1|].
    exact (proj1 (fieldsToSign_repeat_ignored m h "FROM" ["From"] ["To"]) H1 _).
  - split; [exact H2|].
    exact (proj2 (fieldsToSign_repeat_ignored m h "to" [] ["List-Id"]) _ H2).
Defined.

(** X3.  The signing list holds configured names only, and a name that
    only the sign list has is in it only when the header set uses it. *)
Theorem fieldsToSign_configured_only {PrivKey} (m : Modifier PrivKey) (h : Header)
    (e : string) :
  e ∈ fieldsToSign m h →
  e ∈ oversignHeader m ∨ (e ∈ signHeader m ∧ 0 < uses h e).
Proof.
  intros He. destruct (fieldsToSign_elem_of m h e He) as [Hover|[Hsign Hnot]];
    [by left|]. right. split; [done|].
  assert (Href : 0 < references e (fieldsToSign m h)).
  { unfold references.
    assert (Hin : e ∈ filter (λ x, ToLower x = ToLower e) (fieldsToSign m h)).
    { by apply list_elem_of_filter. }
    destruct (filter _ _); [by apply elem_of_nil in Hin|simpl; lia]. }
  rewrite fieldsToSign_references in Href.
  rewrite decide_False in Href.
  - case_decide; [done|lia].
  - intros (o & Heq & Ho)%list_elem_of_fmap. by apply (Hnot o).
Qed.

Lemma fieldsToSign_configured_only_witness :
  let m := modifier oversignDefault signDefault in
  let h := [Field "list-id" "<dev.example.org>"; Field "X-Mailer" "mutt"] in
  "List-Id" ∈ fieldsToSign m h ∧
  ("List-Id" ∈ oversignHeader m ∨ ("List-Id" ∈ signHeader m ∧ 0 < uses h "List-Id")).
Proof.
  intros m h.
  assert (Hin : "List-Id" ∈ fieldsToSign m h).
  { apply list_elem_of_In. vm_compute. do 15 right. by left. }
  split; [exact Hin|]. exact (fieldsToSign_configured_only m h "List-Id" Hin).
Defined.

(** X4.  When the header set has none of the configured fields, the
    signing list is the oversign list without its repeats, each name
    once: the signature then covers the absence of every oversigned
    field, and the sign list adds nothing. *)
Theorem fieldsToSign_absent_fields {PrivKey} (m : Modifier PrivKey) (h : Header) :
  (∀ key, key ∈ oversignHeader m ++ signHeader m → uses h key = 0) →
  fieldsToSign m h = firstUses [] (oversignHeader m).
Proof.
  intros Habsent. rewrite (fieldsToSign_uses_ext m h []).
  - by rewrite fieldsToSign_expand, expand_once, expand_none, app_nil_r.
  - intros key Hkey. by rewrite Habsent.
Qed.

Lemma fieldsToSign_absent_fields_witness :
  let m := modifier oversignDefault signDefault in
  let h := [Field "X-Mailer" "mutt"; Field "Received" "from mx.example.org"] in
  (∀ key, key ∈ oversignHeader m ++ signHeader m → uses h key = 0) ∧
  fieldsToSign m h = oversignDefault.
Proof.
  intros m h.
  assert (Habsent : ∀ key, key ∈ oversignHeader m ++ signHeader m → uses h key = 0).
  { intros key Hkey. simpl in Hkey.
    repeat (apply elem_of_cons in Hkey as [->|Hkey]; [reflexivity|]).
    by apply elem_of_nil in Hkey. }
  split; [exact Habsent|]. exact (fieldsToSign_absent_fields m h Habsent).
Defined.

(** X5.  Signing a message again selects the same fields: when no
    configured name is DKIM-Signature, as with the default lists, the
    header set that a successful [RewriteBody] leaves has the same
    signing list as the one it was given. *)
Theorem fieldsToSign_after_signing {PrivKey} `{!SignerAPI PrivKey}
    (s : state PrivKey) (h h' : Header) (body : Buffer) (now : Z) :
  (∀ key, key ∈ oversignHeader (m s) ++ signHeader (m s) →
          ToLower key ≠ ToLower "DKIM-Signature") →
  RewriteBody s h body now = (h', None) →
  fieldsToSign (m s) h' = fieldsToSign (m s) h.
Proof.
  intros Hnames Hsigned.
  destruct (RewriteBody_signing s h body now) as ([sg|err] & _ & Hrw);
    rewrite Hrw in Hsigned; [|done].
  injection Hsigned as <-. apply fieldsToSign_uses_ext. intros key Hkey.
  change (h ++ [Field "DKIM-Signature" (SignatureValue sg)])
    with (Add h "DKIM-Signature" (SignatureValue sg)).
  rewrite uses_Add, decide_False; [lia|].
  intros Heq. by apply (Hnames key).
Qed.

#[local] Existing Instance toySigner.

Lemma fieldsToSign_after_signing_witness :
  let s := {| m := modifier oversignDefault signDefault; meta := message "alice" |} in
  let h := [Field "Subject" "hello"; Field "From" "alice@example.org"] in
  let h' := (RewriteBody s h (Some "text") 0).1 in
  (∀ key, key ∈ oversignHeader (m s) ++ signHeader (m s) →
          ToLower key ≠ ToLower "DKIM-Signature") ∧
  RewriteBody s h (Some "text") 0 = (h', None) ∧
  Key <$> h' = ["Subject"; "From"; "DKIM-Signature"] ∧
  fieldsToSign (m s) h' = fieldsToSign (m s) h.
Proof.
  intros s h h'.
  assert (Hnames : ∀ key, key ∈ oversignHeader (m s) ++ signHeader (m s) →
                          ToLower key ≠ ToLower "DKIM-Signature").
  { intros key Hkey. simpl in Hkey.
    repeat (apply elem_of_cons in Hkey as [->|Hkey]; [discriminate|]).
    by apply elem_of_nil in Hkey. }
  assert (Hsigned : RewriteBody s h (Some "text") 0 = (h', None)) by reflexivity.
  split; [exact Hnames|]. split; [exact Hsigned|]. split; [reflexivity|].
  exact (fieldsToSign_after_signing s h h' (Some "text") 0 Hnames Hsigned).
Defined.

(** X6.  One more field of a configured name in the header set is one
    more reference to that name in the signing list, whichever list has
    the name and however the field spells it; a field of a name that is
    not configured changes nothing. *)
Theorem fieldsToSign_added_field {PrivKey} (m : Modifier PrivKey) (h : Header)
    (k v : string) :
  (ToLower k ∈ ToLower <$> (oversignHeader m ++ signHeader m) →
   references k (fieldsToSign m (Add h k v)) = S (references k (fieldsToSign m h))) ∧
  (ToLower k ∉ ToLower <$> (oversignHeader m ++ signHeader m) →
   fieldsToSign m (Add h k v) = fieldsToSign m h).
Proof.
  split.
  - rewrite fmap_app, elem_of_app. intros Hin.
    rewrite !fieldsToSign_references, uses_Add.
    rewrite (decide_True (P := ToLower k = ToLower k)) by done.
    destruct (decide (ToLower k ∈ ToLower <$> oversignHeader m)); [lia|].
    destruct (decide (ToLower k ∈ ToLower <$> signHeader m)); [lia|tauto].
  - intros Hnot. apply fieldsToSign_uses_ext. intros key Hkey.
    rewrite uses_Add, decide_False; [lia|].
    intros Heq. apply Hnot. rewrite Heq. by apply list_elem_of_fmap_2.
Qed.

Lemma fieldsToSign_added_field_witness :
  let m := modifier oversignDefault signDefault in
  let h := [Field "From" "alice@example.org"] in
  (ToLower "FROM" ∈ ToLower <$> (oversignHeader m ++ signHeader m) ∧
   references "FROM" (fieldsToSign m (Add h "FROM" "mallory@example.net")) = 3) ∧
  ((ToLower "X-Mailer" ∉ ToLower <$> (oversignHeader m ++ signHeader m)) ∧
   fieldsToSign m (Add h "X-Mailer" "mutt") = fieldsToSign m h).
Proof.
  intros m h.
  assert (Hin : ToLower "FROM" ∈ ToLower <$> (oversignHeader m ++ signHeader m)).
  { simpl. do 4 right. left. }
  assert (Hnot : ToLower "X-Mailer" ∉ ToLower <$> (oversignHeader m ++ signHeader m)).
  { simpl. intros Hx.
    repeat (apply elem_of_cons in Hx as [Hx|Hx]; [discriminate Hx|]).
    by apply elem_of_nil in Hx. }
  split.
  - split; [exact Hin|].
    exact (proj1 (fieldsToSign_added_field m h "FROM" "mallory@example.net") Hin).
  - split; [exact Hnot|].
    exact (proj2 (fieldsToSign_added_field m h "X-Mailer" "mutt") Hnot).
Defined.

End fieldsToSign_more.

(** ** More on the delivery transaction *)

Section delivery_more.
Import strings sql.
Context `{!address.API} `{!imapsql.API}.

(** Every way [AddRcpt] can end: nothing is touched (the recipient is
    refused at once, or its account is recorded already), or the backend
    is called once and its answer decides. *)
Lemma AddRcpt_cases dlv rcptTo :
  (∃ res, AddRcpt dlv rcptTo = (dlv, res) ∧
          (res = None → ∃ acct, rcptAccount dlv rcptTo = inl acct ∧
                                ToLower acct ∈ addedRcpts dlv)) ∨
  (∃ acct d' res,
     rcptAccount dlv rcptTo = inl acct ∧ (ToLower acct ∉ addedRcpts dlv) ∧
     imapsql.AddRcpt (d dlv) (ToLower acct) (Add [] "Delivered-To" rcptTo) = (d', res) ∧
     ((∃ err, res = Some err ∧ ∃ err', AddRcpt dlv rcptTo = (set_d dlv d', Some err')) ∨
      (res = None ∧
       AddRcpt dlv rcptTo =
       (set_addedRcpts (set_d dlv d') ({[ToLower acct]} ∪ addedRcpts dlv), None)))).
Proof.
  destruct (rcptAccount dlv rcptTo) as [acct|err] eqn:Hacct.
  2:{ left. exists (Some err). unfold AddRcpt. rewrite Hacct. by split. }
  destruct (decide (ToLower acct ∈ addedRcpts dlv)) as [Hin|Hnew].
  { left. exists None. split; [by apply (AddRcpt_known _ _ acct)|]. eauto. }
  right.
  destruct (imapsql.AddRcpt (d dlv) (ToLower acct) (Add [] "Delivered-To" rcptTo))
    as [d' res] eqn:Hback.
  exists acct, d', res. repeat (split; [done|]).
  rewrite (AddRcpt_resolved _ _ _ Hacct Hnew), Hback.
  destruct res as [err|]; [left|right; done].
  exists err. split; [done|]. case_decide; eauto.
Qed.

Lemma AddRcpt_store dlv rcptTo : store (AddRcpt dlv rcptTo).1 = store dlv.
Proof.
  destruct (AddRcpt_cases dlv rcptTo)
    as [(res & -> & _)|(acct & d' & res & _ & _ & _ & [(err & _ & err' & ->)|[_ ->]])];
    done.
Qed.

Lemma rcptAccount_store dlv1 dlv2 rcptTo :
  store dlv1 = store dlv2 → rcptAccount dlv1 rcptTo = rcptAccount dlv2 rcptTo.
Proof. unfold rcptAccount. by intros ->. Qed.

Lemma addAll_store dlv rcpts : store (addAll dlv rcpts) = store dlv.
Proof.
  unfold addAll. revert dlv. induction rcpts as [|r rcpts IH]; intros dlv; simpl;
    [done|]. by rewrite IH, AddRcpt_store.
Qed.

Lemma Start_fresh st meta sender st' dlv :
  Start st meta sender = (st', inl dlv) →
  addedRcpts dlv = ∅ ∧ mailFrom dlv = sender ∧ msgMeta dlv = meta ∧
  storagePerDomain (store dlv) = storagePerDomain st.
Proof.
  unfold Start. destruct (imapsql.StartDelivery (back st)) as [back' [d0|err]];
    intros [= <- <-]; done.
Qed.

(** What a run of [AddRcpt] calls records comes from the recipients it
    was given. *)
Lemma addAll_recorded dlv rcpts acct :
  acct ∈ addedRcpts (addAll dlv rcpts) →
  acct ∈ addedRcpts dlv ∨
  ∃ rcptTo a, rcptTo ∈ rcpts ∧ rcptAccount dlv rcptTo = inl a ∧ acct = ToLower a.
Proof.
  unfold addAll. revert dlv. induction rcpts as [|r rcpts IH]; intros dlv; simpl;
    [auto|].
  intros [Hin|(rcptTo & a & Hr & Ha & ->)]%IH.
  - destruct (AddRcpt_cases dlv r)
      as [(res & Hadd & _)|(a & d' & res & Ha & _ & _ & [(err & _ & err' & Hadd)|[_ Hadd]])];
      rewrite Hadd in Hin; simpl in Hin; [auto|auto|].
    apply elem_of_union in Hin as [->%elem_of_singleton|Hin]; [|auto].
    right. exists r, a. split; [left|done].
  - right. exists rcptTo, a. split; [by right|]. split; [|done].
    rewrite <-Ha. symmetry. apply rcptAccount_store, AddRcpt_store.
Qed.

(** X7.  In a delivery that [Start] has opened, whatever recipients are
    added and in whatever order, every recorded account is the account
    that one of these recipients resolves to, in lower case: no account
    is recorded that was not asked for, and none with a capital
    letter. *)
Theorem addAll_records_lower_case (st : Storage) (meta : MsgMetadata)
    (sender : string) (st' : Storage) (dlv : delivery) (rcpts : list string)
    (acct : string) :
  Start st meta sender = (st', inl dlv) →
  acct ∈ addedRcpts (addAll dlv rcpts) →
  ToLower acct = acct ∧
  ∃ rcptTo a, rcptTo ∈ rcpts ∧ rcptAccount dlv rcptTo = inl a ∧ acct = ToLower a.
Proof.
  intros [Hempty _]%Start_fresh [Hin|(rcptTo & a & Hr & Ha & ->)]%addAll_recorded.
  - rewrite Hempty in Hin. by apply not_elem_of_empty in Hin.
  - split; [apply ToLower_idemp|eauto].
Qed.

(** X8.  Two recipients whose accounts differ in the case of letters
    only are one recipient to the transaction: once the backend has
    accepted the first, adding the second returns success and leaves the
    delivery, the backend handle included, as it is. *)
Theorem AddRcpt_same_account_other_case (dlv : delivery) (rcpt1 rcpt2 a1 a2 : string)
    (d' : imapsql.Delivery) :
  rcptAccount dlv rcpt1 = inl a1 →
  rcptAccount dlv rcpt2 = inl a2 →
  ToLower a1 = ToLower a2 →
  ToLower a1 ∉ addedRcpts dlv →
  imapsql.AddRcpt (d dlv) (ToLower a1) (Add [] "Delivered-To" rcpt1) = (d', None) →
  (AddRcpt dlv rcpt1).2 = None ∧
  AddRcpt (AddRcpt dlv rcpt1).1 rcpt2 = ((AddRcpt dlv rcpt1).1, None).
Proof.
  intros H1 H2 Heq Hnew Hback.
  rewrite (AddRcpt_resolved _ _ _ H1 Hnew), Hback. simpl. split; [done|].
  apply (AddRcpt_known _ _ a2).
  - by rewrite <-H2.
  - simpl. rewrite <-Heq. set_solver.
Qed.

(** X9.  [AddRcpt] leaves the store, the message metadata and the sender
    of a delivery alone and removes no recorded account.  When it returns
    an error, the recorded accounts are the same as before; when it
    returns success, the recipient's account in lower case is among
    them. *)
Theorem AddRcpt_postcondition (dlv : delivery) (rcptTo : string) :
  let after := (AddRcpt dlv rcptTo).1 in
  store after = store dlv ∧ msgMeta after = msgMeta dlv ∧
  mailFrom after = mailFrom dlv ∧
  addedRcpts dlv ⊆ addedRcpts after ∧
  (∀ err, (AddRcpt dlv rcptTo).2 = Some err → addedRcpts after = addedRcpts dlv) ∧
  ((AddRcpt dlv rcptTo).2 = None →
   ∃ acct, rcptAccount dlv rcptTo = inl acct ∧ ToLower acct ∈ addedRcpts after).
Proof.
  destruct (AddRcpt_cases dlv rcptTo)
    as [(res & Hadd & Hres)
       |(acct & d' & res & Hacct & _ & _ & [(err & _ & err' & Hadd)|[_ Hadd]])];
    rewrite Hadd; simpl; repeat (split; [done|]).
  - exact Hres.
  - done.
  - split; [set_solver|]. split; [done|]. intros _. exists acct. split; [done|].
    set_solver.
Qed.

Lemma Split_head s sep :
  ∃ first rest,
    Split s sep = first :: rest ∧
    (∀ before after, first ≠ before +:+ String sep after) ∧
    ((rest = [] ∧ s = first) ∨ ∃ tail, s = first +:+ String sep tail).
Proof.
  induction s as [|c s (first & rest & IH & Hno & Hs)]; simpl.
  - exists EmptyString, []. split; [done|]. split; [|by left].
    intros [|b before] after; rewrite ?String_append; discriminate.
  - destruct (Ascii.eqb_spec c sep) as [->|Hne].
    + exists EmptyString, (Split s sep). split; [done|]. split.
      * intros [|b before] after; rewrite ?String_append; discriminate.
      * right. by exists s.
    + rewrite IH. exists (String c first), rest. split; [done|]. split.
      * intros [|b before] after; rewrite ?String_append.
        -- intros [= -> _]. done.
        -- intros [= _ Hfirst]. by apply (Hno before after).
      * destruct Hs as [[-> ->]|[tail ->]]; [by left|right].
        exists tail. by rewrite String_append.
Qed.

(** X10.  The account [GetOrCreateUser] resolves.  Under the shared
    policy it is what stands before the first "@" of the user name, or the
    whole name when it has none; no name is refused, the empty one
    included.  Under the per-domain policy a name with an "@" is the
    account as it is. *)
Theorem userAccount_shape (st : Storage) (username : string) :
  (storagePerDomain st = false →
   ∃ acct, userAccount st username = inl acct ∧
           (∀ before after, acct ≠ before +:+ "@" +:+ after) ∧
           (username = acct ∨ ∃ domain, username = acct +:+ "@" +:+ domain)) ∧
  (storagePerDomain st = true →
   (∃ before after, username = before +:+ "@" +:+ after) →
   userAccount st username = inl username).
Proof.
  split.
  - intros Hpol. unfold userAccount. rewrite Hpol.
    destruct (Split_head username "@") as (first & rest & -> & Hno & Hs).
    exists first. split; [done|]. split; [exact Hno|].
    destruct Hs as [[_ ->]|[tail ->]]; [by left|right]. by exists tail.
  - intros Hpol Hat%Contains_app. unfold userAccount. by rewrite Hpol, Hat.
Qed.

End delivery_more.

(** ** Setting up the modifier *)

Section modifier_setup.
Import strings dkim.

Lemma append_nil_r s : s +:+ EmptyString = s.
Proof. induction s as [|c s IH]; [done|]. by rewrite String_append, IH. Qed.

Lemma append_assoc s t u : (s +:+ t) +:+ u = s +:+ t +:+ u.
Proof. induction s as [|c s IH]; [done|]. by rewrite !String_append, IH. Qed.

Lemma Contains_cons_false c s substr :
  Contains (String c s) substr = false →
  HasPrefix (String c s) substr = false ∧ Contains s substr = false.
Proof. simpl. intros Hor. by apply Bool.orb_false_iff in Hor. Qed.

Section replacer.
Variables domain selector : string.
Let pairs := [("{domain}", domain); ("{selector}", selector)].

(** Text without "{" is copied. *)
Lemma replaceFrom_plain text rest :
  Contains text "{" = false →
  replaceFrom pairs 0 (text +:+ rest) = text +:+ replaceFrom pairs 0 rest.
Proof.
  induction text as [|c text IH]; [done|].
  intros [Hc Htext]%Contains_cons_false. rewrite !String_append. simpl.
  simpl in Hc. destruct (Ascii.eqb c "{"); [done|].
  by rewrite IH.
Qed.

Lemma replaceFrom_domain rest :
  replaceFrom pairs 0 ("{domain}" +:+ rest) = domain +:+ replaceFrom pairs 0 rest.
Proof. reflexivity. Qed.

Lemma replaceFrom_selector rest :
  replaceFrom pairs 0 ("{selector}" +:+ rest) = selector +:+ replaceFrom pairs 0 rest.
Proof. reflexivity. Qed.

End replacer.

(** X11.  The path of the key file: in a template made of text without
    "{" around one "{domain}" and one "{selector}", the two are replaced by
    the domain and the selector and the text is kept; what is put in is not
    read again, whatever the domain and the selector contain. *)
Theorem keyPath_template (domain selector a b c : string) :
  Contains a "{" = false → Contains b "{" = false → Contains c "{" = false →
  keyPath domain selector (a +:+ "{domain}" +:+ b +:+ "{selector}" +:+ c) =
  a +:+ domain +:+ b +:+ selector +:+ c.
Proof.
  intros Ha Hb Hc. unfold keyPath, Replace.
  rewrite replaceFrom_plain by done. rewrite replaceFrom_domain.
  rewrite replaceFrom_plain by done. rewrite replaceFrom_selector.
  rewrite <-(append_nil_r c) at 1. rewrite replaceFrom_plain by done.
  simpl. by rewrite append_nil_r.
Qed.

Lemma keyPath_template_witness :
  Contains "dkim_keys/" "{" = false ∧ Contains "_" "{" = false ∧
  Contains ".key" "{" = false ∧
  keyPath "example.org" "default" "dkim_keys/{domain}_{selector}.key" =
  "dkim_keys/example.org_default.key" ∧
  keyPath "{selector}.org" "s1" "dkim_keys/{domain}_{selector}.key" =
  "dkim_keys/{selector}.org_s1.key".
Proof.
  assert (Ha : Contains "dkim_keys/" "{" = false) by reflexivity.
  assert (Hb : Contains "_" "{" = false) by reflexivity.
  assert (Hc : Contains ".key" "{" = false) by reflexivity.
  split; [exact Ha|]. split; [exact Hb|]. split; [exact Hc|]. split.
  - exact (keyPath_template "example.org" "default" "dkim_keys/" "_" ".key" Ha Hb Hc).
  - exact (keyPath_template "{selector}.org" "s1" "dkim_keys/" "_" ".key" Ha Hb Hc).
Defined.

(** X12.  [New] gives a modifier for no inline argument or for two, and
    an error for any other number; with two, they are the domain and the
    selector, and with none both are empty. *)
Theorem New_inline_arguments (instName : string) (inlineArgs : list string) :
  (length inlineArgs ≠ 0 → length inlineArgs ≠ 2 →
   New instName inlineArgs =
   inr (errors_New "sign_dkim: wrong amount of inline arguments")) ∧
  (∀ inline, New instName inlineArgs = inl inline →
     newInstName inline = instName ∧
     ((inlineArgs = [] ∧ newDomain inline = EmptyString ∧
       newSelector inline = EmptyString) ∨
      inlineArgs = [newDomain inline; newSelector inline])).
Proof.
  destruct inlineArgs as [|arg0 [|arg1 [|arg2 rest]]]; simpl; split; try done.
  - intros inline [= <-]. split; [done|]. by left.
  - intros inline [= <-]. split; [done|]. by right.
Qed.

Lemma New_inline_arguments_witness :
  (length ["example.org"] ≠ 0 ∧ length ["example.org"] ≠ 2 ∧
   New "local_dkim" ["example.org"] =
   inr (errors_New "sign_dkim: wrong amount of inline arguments")) ∧
  (New "local_dkim" ["example.org"; "default"] =
   inl {| newInstName := "local_dkim"; newDomain := "example.org";
          newSelector := "default" |} ∧
   ["example.org"; "default"] = ["example.org"; "default"]).
Proof.
  assert (H0 : length ["example.org"] ≠ 0) by discriminate.
  assert (H2 : length ["example.org"] ≠ 2) by discriminate.
  split.
  - split; [exact H0|]. split; [exact H2|].
    exact (proj1 (New_inline_arguments "local_dkim" ["example.org"]) H0 H2).
  - split; [reflexivity|].
    destruct (proj2 (New_inline_arguments "local_dkim" ["example.org"; "default"])
                _ eq_refl) as [_ [[Hnil _]|Hargs]]; [discriminate Hnil|exact Hargs].
Defined.

Section init.
Context {PrivKey : Type} `{!KeyStore PrivKey}.

(** X13.  [Init] stops before any key file is read or written when the
    configuration could not be processed, when the domain is empty, when
    the selector is empty, and, by a panic, when the hash name is not in
    [hashFuncs]. *)
Theorem Init_stops_before_key (m : Modifier (option PrivKey)) (processed : option error)
    (hashName keyPathTemplate newKeyAlgo : string) (files : Files) :
  (∀ err, processed = Some err →
     Init m processed hashName keyPathTemplate newKeyAlgo files = (files, Failed err)) ∧
  (processed = None → domain m = EmptyString →
     Init m processed hashName keyPathTemplate newKeyAlgo files =
     (files, Failed (errors_New "sign_domain: domain is not specified"))) ∧
  (processed = None → domain m ≠ EmptyString → selector m = EmptyString →
     Init m processed hashName keyPathTemplate newKeyAlgo files =
     (files, Failed (errors_New "sign_domain: selector is not specified"))) ∧
  (processed = None → domain m ≠ EmptyString → selector m ≠ EmptyString →
   hashName ≠ "sha256" →
     ∃ msg, Init m processed hashName keyPathTemplate newKeyAlgo files =
            (files, Panic msg)).
Proof.
  unfold Init. repeat split.
  - by intros err ->.
  - intros -> Hdom. by rewrite decide_True.
  - intros -> Hdom Hsel. by rewrite decide_False, decide_True.
  - intros -> Hdom Hsel Hhash. rewrite !decide_False by done.
    unfold hashFuncs. rewrite lookup_singleton_ne by done. simpl. eauto.
Qed.

(** X14.  A modifier that [Init] hands back has a domain and a selector
    that are not empty, the hash SHA-256, and the key that
    [loadOrGenerateKey] returned for the path made from the template; the
    header lists, the canonicalizations and the expiry are those of the
    configuration. *)
Theorem Init_done (m m' : Modifier (option PrivKey)) (processed : option error)
    (hashName keyPathTemplate newKeyAlgo : string) (files files' : Files) :
  Init m processed hashName keyPathTemplate newKeyAlgo files = (files', Done m') →
  processed = None ∧ hashName = "sha256" ∧
  domain m' = domain m ∧ domain m' ≠ EmptyString ∧
  selector m' = selector m ∧ selector m' ≠ EmptyString ∧
  hash m' = 5%N ∧
  (∃ key, signer m' = Some key ∧
          loadOrGenerateKey files (domain m) (selector m)
            (keyPath (domain m) (selector m) keyPathTemplate) newKeyAlgo
          = (files', inl key)) ∧
  oversignHeader m' = oversignHeader m ∧ signHeader m' = signHeader m ∧
  headerCanon m' = headerCanon m ∧ bodyCanon m' = bodyCanon m ∧
  sigExpiry m' = sigExpiry m.
Proof.
  unfold Init. destruct processed as [err|]; [done|].
  destruct (decide (domain m = EmptyString)) as [|Hdom]; [done|].
  destruct (decide (selector m = EmptyString)) as [|Hsel]; [done|].
  destruct (decide (hashName = "sha256")) as [->|Hhash].
  2:{ unfold hashFuncs. rewrite lookup_singleton_ne by done. simpl. done. }
  unfold hashFuncs. rewrite lookup_singleton_eq. simpl.
  destruct (loadOrGenerateKey _ _ _ _ _) as [files1 [key|err]] eqn:Hkey; [|done].
  intros [= <- <-]. simpl. repeat (split; [done|]). split; [eauto|done].
Qed.

End init.

Lemma Init_stops_before_key_witness :
  let files := ["dkim_keys/other.key"] in
  @Init _ examples.toyKeys (examples.configured "" "default") None
     "sha256" "dkim_keys/{domain}_{selector}.key" "rsa2048" files =
  (files, Failed (errors_New "sign_domain: domain is not specified")) ∧
  @Init _ examples.toyKeys (examples.configured "example.org" "") None
     "sha256" "dkim_keys/{domain}_{selector}.key" "rsa2048" files =
  (files, Failed (errors_New "sign_domain: selector is not specified")) ∧
  ∃ msg, @Init _ examples.toyKeys (examples.configured "example.org" "default") None
           "sha1" "dkim_keys/{domain}_{selector}.key" "rsa2048" files =
         (files, Panic msg).
Proof.
  intros files. split; [|split].
  - exact (proj1 (proj2 (@Init_stops_before_key _ examples.toyKeys
                           (examples.configured "" "default") None "sha256"
                           "dkim_keys/{domain}_{selector}.key" "rsa2048" files))
             eq_refl eq_refl).
  - refine (proj1 (proj2 (proj2 (@Init_stops_before_key _ examples.toyKeys
                           (examples.configured "example.org" "") None "sha256"
                           "dkim_keys/{domain}_{selector}.key" "rsa2048" files)))
             eq_refl _ eq_refl). discriminate.
  - refine (proj2 (proj2 (proj2 (@Init_stops_before_key _ examples.toyKeys
                           (examples.configured "example.org" "default") None "sha1"
                           "dkim_keys/{domain}_{selector}.key" "rsa2048" files)))
             eq_refl _ _ _); discriminate.
Defined.

Lemma Init_done_witness :
  let m := examples.configured "example.org" "default" in
  let r := @Init _ examples.toyKeys m None "sha256"
             "dkim_keys/{domain}_{selector}.key" "rsa2048" [] in
  ∃ m', r = (["dkim_keys/example.org_default.key"], Done m') ∧
        domain m' = "example.org" ∧ hash m' = 5%N ∧
        signer m' = Some "key at dkim_keys/example.org_default.key".
Proof.
  intros m r.
  assert (Hr : ∃ m', r = (["dkim_keys/example.org_default.key"], Done m')).
  { eexists. reflexivity. }
  destruct Hr as [m' Hr]. exists m'. split; [exact Hr|].
  destruct (@Init_done _ examples.toyKeys m m' None "sha256"
              "dkim_keys/{domain}_{selector}.key" "rsa2048" [] _ Hr)
    as (_ & _ & Hdom & _ & _ & _ & Hhash & (key & Hsigner & Hload) & _).
  split; [exact Hdom|]. split; [exact Hhash|].
  rewrite Hsigner. vm_compute in Hload. congruence.
Defined.

(** X15.  The identifier that [RewriteBody] hands to the signer always
    has an "@" in it, whatever the envelope sender and the domain are. *)
Theorem identifier_has_at {PrivKey} (s : state PrivKey) (h : Header) (now : Z) :
  ∃ before after, Identifier (signOptions s h now) = before +:+ "@" +:+ after.
Proof.
  simpl. unfold identifier.
  destruct (Contains (OriginalFrom (meta s)) "@") eqn:Hat; simpl.
  - by apply Contains_app.
  - by exists (OriginalFrom (meta s)), (domain (m s)).
Qed.

End modifier_setup.

(** ** Depositing the body, and setting up the storage *)

Section storage_more.
Import strings sql.

Section body.
Context `{!imapsql.API} `{!imapsql.DepositAPI} `{!target.API}.


End body.

(** X17.  [New] gives an error for exactly one inline argument and a
    storage for any other number.  With two or more, the first is the
    driver and the others, joined by single spaces, are the DSN; with two
    the DSN is the second as it is. *)
Theorem sql_New_inline_arguments (instName : string) (inlineArgs : list string) :
  (length inlineArgs = 1 →
   New instName inlineArgs = inr (errors_New "sql: specify at least driver and DSN")) ∧
  (inlineArgs = [] →
   New instName inlineArgs =
   inl {| newInstName := instName; inlineDriverArg := EmptyString;
          inlineDSNArg := EmptyString |}) ∧
  (∀ arg0 arg1 rest, inlineArgs = arg0 :: arg1 :: rest →
   New instName inlineArgs =
   inl {| newInstName := instName; inlineDriverArg := arg0;
          inlineDSNArg := Join (arg1 :: rest) " " |}) ∧
  (∀ arg0 arg1, Join [arg1] " " = arg1 ∧
                Join [arg0; arg1] " " = arg0 +:+ " " +:+ arg1).
Proof.
  split; [|split; [|split]].
  - destruct inlineArgs as [|arg0 [|arg1 rest]]; done.
  - by intros ->.
  - intros arg0 arg1 rest ->. by destruct rest.
  - done.
Qed.

Lemma sql_New_inline_arguments_witness :
  (length ["sqlite3"] = 1 ∧
   New "local_mailboxes" ["sqlite3"] =
   inr (errors_New "sql: specify at least driver and DSN")) ∧
  New "local_mailboxes" ["postgres"; "user=maddy"; "dbname=maddy"; "sslmode=disable"] =
  inl {| newInstName := "local_mailboxes"; inlineDriverArg := "postgres";
         inlineDSNArg := "user=maddy dbname=maddy sslmode=disable" |}.
Proof.
  split.
  - split; [reflexivity|].
    exact (proj1 (sql_New_inline_arguments "local_mailboxes" ["sqlite3"]) eq_refl).
  - exact (proj1 (proj2 (proj2 (sql_New_inline_arguments "local_mailboxes"
             ["postgres"; "user=maddy"; "dbname=maddy"; "sslmode=disable"])))
             _ _ _ eq_refl).
Defined.

(** X18.  The append limit of the configuration: -1 stands for no limit;
    a value above the largest 32-bit number is refused; a value from 0 up
    to and including that number is taken as it is, the conversion to 32
    bits losing nothing. *)
Theorem maxMsgBytes_bounds (appendlimitVal : Z) :
  (appendlimitVal = -1 → maxMsgBytes appendlimitVal = inl None)%Z ∧
  (appendlimitVal > MaxUint32 →
   maxMsgBytes appendlimitVal =
   inr (errors_New "sql: appendlimit can't be higher than 2 GiB"))%Z ∧
  (0 ≤ appendlimitVal ≤ MaxUint32 →
   maxMsgBytes appendlimitVal = inl (Some appendlimitVal))%Z.
Proof.
  unfold maxMsgBytes, MaxUint32. split; [|split].
  - by intros ->.
  - intros Hhigh. rewrite decide_False by lia. by rewrite decide_True.
  - intros Hrange. rewrite !decide_False by lia.
    by rewrite Z.mod_small by lia.
Qed.

Lemma maxMsgBytes_bounds_witness :
  maxMsgBytes (-1) = inl None ∧
  ((4294967296 > MaxUint32)%Z ∧
   maxMsgBytes 4294967296 =
   inr (errors_New "sql: appendlimit can't be higher than 2 GiB")) ∧
  ((0 ≤ 4294967295 ≤ MaxUint32)%Z ∧
   maxMsgBytes 4294967295 = inl (Some 4294967295%Z)) ∧
  ((0 ≤ 33554432 ≤ MaxUint32)%Z ∧
   maxMsgBytes 33554432 = inl (Some 33554432%Z)).
Proof.
  assert (Hhigh : (4294967296 > MaxUint32)%Z) by reflexivity.
  assert (Hmax : (0 ≤ 4294967295 ≤ MaxUint32)%Z) by (unfold MaxUint32; lia).
  assert (Hdef : (0 ≤ 33554432 ≤ MaxUint32)%Z) by (unfold MaxUint32; lia).
  split; [exact (proj1 (maxMsgBytes_bounds (-1)) eq_refl)|].
  split; [split; [exact Hhigh|exact (proj1 (proj2 (maxMsgBytes_bounds _)) Hhigh)]|].
  split; [split; [exact Hmax|exact (proj2 (proj2 (maxMsgBytes_bounds _)) Hmax)]|].
  split; [exact Hdef|exact (proj2 (proj2 (maxMsgBytes_bounds _)) Hdef)].
Defined.

Section init.
Context `{!imapsql.API} `{!imapsql.InitAPI}.

(** X19.  A storage that [Init] hands back was configured with a driver
    and a DSN that are not empty, with auth domains if authentication is
    per domain, and with an append limit that is -1 or fits 32 bits; its
    backend is the one [imapsql.New] returned for that driver, the DSN
    joined by spaces and options that carry this limit; its policy
    fields are those of the configuration. *)
Theorem sql_Init_done (inline : Inline) (processed : option error) (cfg : Settings)
    (files files' : imapsql.Files) (st : Storage) :
  Init inline processed cfg files = (files', inl st) →
  processed = None ∧
  driver cfg ≠ EmptyString ∧ dsn cfg ≠ [] ∧ dsn cfg ≠ [EmptyString] ∧
  (auth_perdomain cfg = true → auth_domains cfg ≠ None) ∧
  (appendlimitVal cfg = -1 ∨ appendlimitVal cfg ≤ MaxUint32)%Z ∧
  (∃ files1 opts,
     imapsql.New files1 (driver cfg) (Join (dsn cfg) " ") opts = (files', inl (back st)) ∧
     imapsql.LazyUpdatesInit opts = true ∧
     maxMsgBytes (appendlimitVal cfg) = inl (imapsql.MaxMsgBytes opts) ∧
     (fsstoreLocation cfg = EmptyString → imapsql.ExternalStore opts = None ∧ files1 = files)) ∧
  instName st = newInstName inline ∧
  storagePerDomain st = storage_perdomain cfg ∧
  authPerDomain st = auth_perdomain cfg ∧
  junkMbox st = junk_mailbox cfg ∧ hostname st = cfgHostname cfg.
Proof.
  unfold Init. destruct processed as [err|]; [done|].
  destruct (decide (auth_perdomain cfg = true ∧ auth_domains cfg = None))
    as [|Hauth]; [done|].
  set (external := if decide (fsstoreLocation cfg ≠ EmptyString) then _ else _).
  assert (Hext : fsstoreLocation cfg = EmptyString → external = (files, inl None)).
  { intros Hloc. unfold external. by rewrite decide_False by (by intros []). }
  destruct external as [files1 [externalStore|err]]; [|done].
  destruct (maxMsgBytes (appendlimitVal cfg)) as [limit|err] eqn:Hlimit; [|done].
  unfold dataSource.
  destruct (decide (driver cfg = EmptyString)) as [|Hdriver]; [done|].
  destruct (decide (length (dsn cfg) = 0 ∨ _)) as [|Hdsn]; [done|].
  destruct (imapsql.New files1 _ _ _) as [files2 [back1|text]] eqn:Hnew; [|done].
  intros [= <- <-]. simpl. split; [done|]. split; [done|].
  split. { intros Hnil. apply Hdsn. left. by rewrite Hnil. }
  split. { intros Hnil. apply Hdsn. right. by rewrite Hnil. }
  split. { intros Hper ?. by apply Hauth. }
  split.
  { unfold maxMsgBytes in Hlimit.
    destruct (decide (appendlimitVal cfg = -1)%Z); [by left|right].
    destruct (decide (appendlimitVal cfg > MaxUint32)%Z); [done|lia]. }
  split; [|done].
  eexists files1, _. split; [exact Hnew|]. simpl. split; [done|]. split; [done|].
  intros Hloc. specialize (Hext Hloc). by injection Hext as -> ->.
Qed.

End init.

End storage_more.

(** ** The additions on the in-memory engine *)

Section more_examples.
Import strings sql examples.
#[local] Existing Instance exampleAddress.
#[local] Existing Instance exampleTarget.

Lemma addAll_records_lower_case_witness :
  let st := @storage (memStorage users) tt false in
  let rcpts := ["Bob@example.org"; "dave@example.org"; "BOB@example.org";
                "Carol@Example.org"] in
  ∃ st' dlv,
    Start st (message "alice@example.org") "alice@example.org" = (st', inl dlv) ∧
    "carol" ∈ addedRcpts (addAll dlv rcpts) ∧
    ToLower "carol" = "carol" ∧
    ∃ rcptTo a, rcptTo ∈ rcpts ∧ rcptAccount dlv rcptTo = inl a ∧ "carol" = ToLower a.
Proof.
  intros st rcpts. eexists _, _.
  assert (Hstart : Start st (message "alice@example.org") "alice@example.org"
                   = (st, inl (opened users false))) by reflexivity.
  assert (Hin : "carol" ∈ addedRcpts (addAll (opened users false) rcpts)).
  { by vm_compute. }
  split; [exact Hstart|]. split; [exact Hin|].
  exact (addAll_records_lower_case st _ _ _ _ rcpts "carol" Hstart Hin).
Defined.

Lemma AddRcpt_same_account_other_case_witness :
  let dlv' := opened ("bob@example.org" :: users) true in
  rcptAccount dlv' "Bob@Example.org" = inl "Bob@Example.org" ∧
  rcptAccount dlv' "bob@example.ORG" = inl "bob@example.ORG" ∧
  ToLower "Bob@Example.org" = ToLower "bob@example.ORG" ∧
  (AddRcpt dlv' "Bob@Example.org").2 = None ∧
  AddRcpt (AddRcpt dlv' "Bob@Example.org").1 "bob@example.ORG" =
  ((AddRcpt dlv' "Bob@Example.org").1, None).
Proof.
  intros dlv'.
  assert (H1 : rcptAccount dlv' "Bob@Example.org" = inl "Bob@Example.org")
    by reflexivity.
  assert (H2 : rcptAccount dlv' "bob@example.ORG" = inl "bob@example.ORG")
    by reflexivity.
  assert (Heq : ToLower "Bob@Example.org" = ToLower "bob@example.ORG")
    by reflexivity.
  assert (Hnew : ToLower "Bob@Example.org" ∉ addedRcpts dlv')
    by apply not_elem_of_empty.
  split; [exact H1|]. split; [exact H2|]. split; [exact Heq|].
  exact (AddRcpt_same_account_other_case dlv' _ _ _ _ _ H1 H2 Heq Hnew eq_refl).
Defined.

Lemma AddRcpt_postcondition_witness :
  let dlv := bobAdded false in
  ((AddRcpt dlv "dave@example.org").2 =
   Some (SMTPError 550%Z (5, 1, 1)%Z "User doesn't exist") ∧
   addedRcpts (AddRcpt dlv "dave@example.org").1 = addedRcpts dlv) ∧
  ((AddRcpt dlv "Carol@example.org").2 = None ∧
   ∃ acct, rcptAccount dlv "Carol@example.org" = inl acct ∧
           ToLower acct ∈ addedRcpts (AddRcpt dlv "Carol@example.org").1).
Proof.
  intros dlv.
  assert (Hdave : (AddRcpt dlv "dave@example.org").2 =
                  Some (SMTPError 550%Z (5, 1, 1)%Z "User doesn't exist"))
    by reflexivity.
  assert (Hcarol : (AddRcpt dlv "Carol@example.org").2 = None) by reflexivity.
  split.
  - split; [exact Hdave|].
    exact (proj1 (proj2 (proj2 (proj2 (proj2
             (AddRcpt_postcondition dlv "dave@example.org"))))) _ Hdave).
  - split; [exact Hcarol|].
    exact (proj2 (proj2 (proj2 (proj2 (proj2
             (AddRcpt_postcondition dlv "Carol@example.org"))))) Hcarol).
Defined.

Lemma userAccount_shape_witness :
  let shared := @storage (memStorage users) tt false in
  let perDomain := @storage (memStorage users) tt true in
  userAccount shared "bob@example.org@relay" = inl "bob" ∧
  userAccount shared "" = inl "" ∧
  userAccount shared "@example.org" = inl "" ∧
  ((∃ before after, "bob@example.org" = before +:+ "@" +:+ after) ∧
   userAccount perDomain "bob@example.org" = inl "bob@example.org").
Proof.
  intros shared perDomain.
  assert (Hat : ∃ before after, "bob@example.org" = before +:+ "@" +:+ after).
  { by exists "bob", "example.org". }
  split; [reflexivity|]. split; [reflexivity|]. split; [reflexivity|].
  split; [exact Hat|].
  exact (proj2 (userAccount_shape perDomain "bob@example.org") eq_refl Hat).
Defined.


Lemma sql_Init_done_witness :
  let inline := {| newInstName := "local_mailboxes"; inlineDriverArg := "sqlite3";
                   inlineDSNArg := "imapsql.db" |} in
  let cfg := settings "sqlite3" ["imapsql.db"] 33554432 in
  ∃ st, @Init _ (memInit users) inline None cfg [] =
        (["/var/lib/maddy/messages"], inl st) ∧
        driver cfg ≠ EmptyString ∧ storagePerDomain st = false ∧
        junkMbox st = "Junk".
Proof.
  intros inline cfg.
  assert (Hinit : ∃ st, @Init _ (memInit users) inline None cfg [] =
                        (["/var/lib/maddy/messages"], inl st)).
  { eexists. reflexivity. }
  destruct Hinit as [st Hinit]. exists st. split; [exact Hinit|].
  destruct (@sql_Init_done _ (memInit users) inline None cfg [] _ st Hinit)
    as (_ & Hdriver & _ & _ & _ & _ & _ & _ & Hpol & _ & Hjunk & _).
  split; [exact Hdriver|]. split; [exact Hpol|exact Hjunk].
Defined.

End more_examples.

(** ** From [Init] to the signer *)

Section initialised.
Import strings dkim.
Context {PrivKey : Type} `{!KeyStore PrivKey}.

(** X20.  Whatever message an initialised modifier signs, the options
    it hands to the signer name a domain and a selector that are not
    empty, the hash SHA-256 and the key that [Init] loaded. *)
Theorem signOptions_initialised (m m' : Modifier (option PrivKey))
    (processed : option error) (hashName keyPathTemplate newKeyAlgo : string)
    (files files' : Files) (msgMeta : MsgMetadata) (h : Header) (now : Z) :
  Init m processed hashName keyPathTemplate newKeyAlgo files = (files', Done m') →
  let opts := signOptions (ModStateForMsg m' msgMeta).1 h now in
  Domain opts ≠ EmptyString ∧ Selector opts ≠ EmptyString ∧ Hash opts = 5%N ∧
  ∃ key, Signer opts = Some key ∧
         (loadOrGenerateKey files (domain m) (selector m)
            (keyPath (domain m) (selector m) keyPathTemplate) newKeyAlgo).2 = inl key.
Proof.
  unfold Init. destruct processed as [err|]; [done|].
  destruct (decide (domain m = EmptyString)) as [|Hdom]; [done|].
  destruct (decide (selector m = EmptyString)) as [|Hsel]; [done|].
  case_decide as Hhash; [done|].
  destruct (loadOrGenerateKey _ _ _ _ _) as [files1 [key|err]]; [|done].
  intros [= <- <-]. simpl. split; [done|]. split; [done|]. split.
  - revert Hhash. unfold hashFuncs.
    destruct (decide (hashName = "sha256")) as [->|Hne].
    + by rewrite lookup_singleton_eq.
    + by rewrite lookup_singleton_ne.
  - by exists key.
Qed.

End initialised.

Lemma signOptions_initialised_witness :
  let m := examples.configured "example.org" "default" in
  ∃ m', @dkim.Init _ examples.toyKeys m None "sha256"
          "dkim_keys/{domain}_{selector}.key" "ed25519" [] =
        (["dkim_keys/example.org_default.key"], dkim.Done m') ∧
        dkim.Domain (dkim.signOptions
                       (dkim.ModStateForMsg m' (examples.message "alice")).1 [] 0)
        ≠ EmptyString.
Proof.
  intros m.
  assert (Hr : ∃ m', @dkim.Init _ examples.toyKeys m None "sha256"
                 "dkim_keys/{domain}_{selector}.key" "ed25519" [] =
               (["dkim_keys/example.org_default.key"], dkim.Done m')).
  { eexists. reflexivity. }
  destruct Hr as [m' Hr]. exists m'. split; [exact Hr|].
  exact (proj1 (@signOptions_initialised _ examples.toyKeys m m' None "sha256"
                  "dkim_keys/{domain}_{selector}.key" "ed25519" [] _
                  (examples.message "alice") [] 0 Hr)).
Defined.
